(** * Secondary-structure overlay: a shallow embedding of [ss_overlay.py]

    The development follows the two parts of the module:
    - the class [secondary_structure_overlay], whose method
      [find_ss_segments_and_generate_overlay] draws arrows, arcs and thin
      rectangles on a matplotlib axis;
    - the function [read_secondary_structure_assignment], which turns the
      [LOC] lines of a stride file into segment records.

    Python lists are mutable objects, so they live in a store ([heap]) and are
    passed around by reference; exceptions are results of the computation and
    leave the store as it was when they were raised. *)

From Stdlib Require Import ZArith QArith Qround Lqa String Ascii List Permutation.
From stdpp Require Import gmap strings list.
From Equations Require Import Equations.

Local Open Scope Z_scope.

(** ** Python values, objects and exceptions *)

(** The immutable values found in the lists the module handles. *)
Inductive val :=
| VInt (z : Z)
| VStr (s : string).

Global Instance val_eq_dec : EqDecision val.
Proof. solve_decision. Defined.

(** [a == b] on such values: an [int] is never equal to a [str]. *)
Definition py_eq (a b : val) : bool := bool_decide (a = b).

Abbreviation loc := positive.

(** A list object is either a flat list of values (the residue numbers, one
    segment record) or a list of references to list objects (the list of
    segment records). *)
Inductive obj :=
| OList (xs : list val)
| ONested (ls : list loc).

Inductive exn := TypeError | ValueError | IndexError.

Global Instance exn_eq_dec : EqDecision exn.
Proof. solve_decision. Defined.

(** The builtin [LookupError] is the base class of [IndexError] and
    [KeyError]; [ValueError] and [TypeError] do not derive from it. *)
Definition is_LookupError (e : exn) : bool :=
  match e with
  | IndexError => true
  | TypeError | ValueError => false
  end.

(** [Undefined] marks a store the interpreter cannot produce (a dangling
    reference, or a nested list where a flat one is read). *)
Inductive outcome (A : Type) :=
| Ok (a : A)
| Raise (e : exn)
| Undefined.
Arguments Ok {A} a.
Arguments Raise {A} e.
Arguments Undefined {A}.

(** ** Drawing primitives

    The artists handed to [ax.add_patch], with the arguments the module
    passes.  Horizontal positions of arrows and rectangles are Python [int]s;
    the arcs are placed at numpy floats: a float is held as the rational
    number it stands for, rounded as float64 arithmetic rounds it (see
    [f64] below); the float literals and the height above the axis are kept
    as the source writes them. *)
Inductive patch :=
| FancyArrow (x : Z) (y : Q) (dx dy : Z)
    (head_length head_width width : Q) (length_includes_head : bool)
| Arc (origin_x origin_y : Q) (width height : Q) (theta1 theta2 : Z)
| Rectangle (x : Z) (y : Q) (width : Z) (height : Q).

Global Instance Q_eq_dec : EqDecision Q.
Proof. solve_decision. Defined.

Global Instance patch_eq_dec : EqDecision patch.
Proof. solve_decision. Defined.

(** ** Program state *)

Record state := State {
  heap : gmap loc obj;       (* the list objects *)
  ax_patches : list patch;   (* the patches of [self.ax], in insertion order *)
  ylim_top : Q               (* [plt.ylim()[1]] *)
}.

Definition set_heap (h : gmap loc obj) (σ : state) : state :=
  State h (ax_patches σ) (ylim_top σ).

Definition emit (ps : list patch) (σ : state) : state :=
  State (heap σ) (ax_patches σ ++ ps) (ylim_top σ).

(** ** The state-and-exception monad *)

Definition M (A : Type) : Type := state → state * outcome A.

Global Instance M_ret : MRet M := λ A a σ, (σ, Ok a).

Global Instance M_bind : MBind M := λ A B f m σ,
  match m σ with
  | (σ', Ok a) => f a σ'
  | (σ', Raise e) => (σ', Raise e)
  | (σ', Undefined) => (σ', Undefined)
  end.

Definition lift {A} (o : outcome A) : M A := λ σ, (σ, o).

(** [for x in xs: body x] *)
Fixpoint for_each {A} (xs : list A) (body : A → M unit) : M unit :=
  match xs with
  | [] => mret ()
  | x :: xs' => body x ;; for_each xs' body
  end.

(** A [for] loop that updates local variables [s]. *)
Fixpoint for_acc {A S} (xs : list A) (s : S) (body : A → S → M S) : M S :=
  match xs with
  | [] => mret s
  | x :: xs' => s' ← body x s; for_acc xs' s' body
  end.

(** [range(a, b)] for two integers. *)
Definition py_range (a b : Z) : list Z := seqZ a (b - a).

(** ** Exceptions in pure code *)

Global Instance outcome_ret : MRet outcome := λ A a, Ok a.

Global Instance outcome_bind : MBind outcome := λ A B f o,
  match o with
  | Ok a => f a
  | Raise e => Raise e
  | Undefined => Undefined
  end.

Global Instance outcome_fmap : FMap outcome := λ A B f o,
  match o with
  | Ok a => Ok (f a)
  | Raise e => Raise e
  | Undefined => Undefined
  end.

(** ** Strings

    The [str] methods the module calls, on ASCII strings. *)

Local Open Scope string_scope.
Local Open Scope list_scope.

(** [c in s] for a character [c]. *)
Fixpoint occurs (c : ascii) (s : string) : Prop :=
  match s with
  | "" => False
  | String d s' => c = d ∨ occurs c s'
  end.

(** [s.replace(old, "")] for a non-empty [old]: the occurrences of [old] are
    deleted from left to right, without overlap.  [skip] counts the
    characters of the current occurrence that are still to be dropped. *)
Fixpoint str_remove_from (old : string) (skip : nat) (s : string) : string :=
  match s with
  | "" => ""
  | String c s' =>
      match skip with
      | S k => str_remove_from old k s'
      | O =>
          if String.prefix old s
          then str_remove_from old (String.length old - 1) s'
          else String c (str_remove_from old 0 s')
      end
  end.

Definition str_remove (old s : string) : string := str_remove_from old 0 s.

(** [s.split(sep)] for a one-character separator: every separator ends a
    field, so consecutive separators give empty fields. *)
Fixpoint str_split (sep : ascii) (s : string) : list string :=
  match s with
  | "" => [""]
  | String c s' =>
      if Ascii.eqb c sep then "" :: str_split sep s'
      else match str_split sep s' with
           | t :: ts => String c t :: ts
           | [] => [String c ""]
           end
  end.

(** [s[:n]] *)
Definition str_take (n : nat) (s : string) : string := String.substring 0 n s.

(** A string is the list of its characters, and a character is a code point
    below 256. *)

(** [c.isspace()]: the characters [str.split()] takes for separators. *)
Definition is_space (c : ascii) : bool :=
  let n := nat_of_ascii c in
  ((9 <=? n) && (n <=? 13) || (28 <=? n) && (n <=? 32)
   || (n =? 133) || (n =? 160))%nat.

(** The characters [int()] skips around a number: the blanks of C's
    [isspace], and the two blanks above 127, which [int()] turns into
    spaces before it reads the number.  The separators 28 to 31 are not
    among them. *)
Definition is_int_space (c : ascii) : bool :=
  let n := nat_of_ascii c in
  ((9 <=? n) && (n <=? 13) || (n =? 32) || (n =? 133) || (n =? 160))%nat.

Definition digit_of (c : ascii) : option Z :=
  let n := nat_of_ascii c in
  if ((48 <=? n) && (n <=? 57))%nat then Some (Z.of_nat n - 48)%Z else None.

(** The string without the blanks [int()] skips at its start. *)
Fixpoint lstrip (s : string) : string :=
  match s with
  | "" => ""
  | String c s' => if is_int_space c then lstrip s' else s
  end.

(** [rstrip] keeps a character when it is not a space or when something
    other than spaces follows it. *)
Fixpoint rstrip (s : string) : string :=
  match s with
  | "" => ""
  | String c s' =>
      match rstrip s' with
      | "" => if is_int_space c then "" else String c ""
      | t => String c t
      end
  end.

(** Where the scan of a decimal literal stands: nothing read yet, just after
    a digit, or just after an underscore. *)
Inductive scan := AtStart | AfterDigit | AfterUnderscore.

(** Digits, with single underscores allowed between two digits. *)
Fixpoint scan_digits (st : scan) (acc : Z) (s : string) : option Z :=
  match s with
  | "" => match st with AfterDigit => Some acc | _ => None end
  | String c s' =>
      match digit_of c with
      | Some d => scan_digits AfterDigit (10 * acc + d)%Z s'
      | None =>
          if Ascii.eqb c "_"
          then match st with
               | AfterDigit => scan_digits AfterUnderscore acc s'
               | _ => None
               end
          else None
      end
  end.

(** [sys.get_int_max_str_digits()], as the interpreter sets it when it
    starts: [int()] refuses a decimal literal of more digits. *)
Definition int_max_str_digits : Z := 4300.

(** The number of digits of a literal; underscores are not counted. *)
Fixpoint count_digits (s : string) : Z :=
  match s with
  | "" => 0
  | String c s' =>
      match digit_of c with
      | Some _ => 1 + count_digits s'
      | None => count_digits s'
      end
  end.

(** The digits after the sign. *)
Definition int_of_digits (t : string) : option Z :=
  if (count_digits t <=? int_max_str_digits)%Z then scan_digits AtStart 0 t
  else None.

(** [int(s)] for a string, base 10: surrounding blanks, an optional sign,
    then the digits. *)
Definition int_of_string (s : string) : option Z :=
  match rstrip (lstrip s) with
  | String "-" t => Z.opp <$> int_of_digits t
  | String "+" t => int_of_digits t
  | t => int_of_digits t
  end.

(** [int(v)] *)
Definition py_int (v : val) : outcome Z :=
  match v with
  | VInt z => Ok z
  | VStr s => match int_of_string s with Some z => Ok z | None => Raise ValueError end
  end.

(** [a - b]: defined on two integers only. *)
Definition py_sub (a b : val) : outcome Z :=
  match a, b with
  | VInt x, VInt y => Ok (x - y)%Z
  | _, _ => Raise TypeError
  end.

(** [range(a, b)]: both bounds must be integers. *)
Definition py_range_val (a b : val) : outcome (list Z) :=
  match a, b with
  | VInt x, VInt y => Ok (py_range x y)
  | _, _ => Raise TypeError
  end.

(** [xs[i]] for [i >= 0] and [xs[-1]] *)
Definition getitem {A} (xs : list A) (i : nat) : outcome A :=
  match xs !! i with Some x => Ok x | None => Raise IndexError end.

Definition getlast {A} (xs : list A) : outcome A :=
  match last xs with Some x => Ok x | None => Raise IndexError end.

(** [xs.remove(v)]: deletes the first element equal to [v]. *)
Fixpoint list_remove (v : val) (xs : list val) : outcome (list val) :=
  match xs with
  | [] => Raise ValueError
  | x :: xs' => if py_eq x v then Ok xs' else cons x <$> list_remove v xs'
  end.

(** [v < n] for an integer [n]: an integer on the left is required. *)
Definition py_lt (v : val) (n : Z) : outcome bool :=
  match v with
  | VInt z => Ok (z <? n)%Z
  | VStr _ => Raise TypeError
  end.

(** ** Floating-point numbers

    A float64 is held as the rational number it stands for. *)

(** The integer nearest to [n / d] for [0 ≤ n] and [0 < d]; of two nearest
    integers, the even one. *)
Definition round_half_even (n d : Z) : Z :=
  let q := n / d in
  match 2 * (n mod d) ?= d with
  | Lt => q
  | Gt => q + 1
  | Eq => if Z.even q then q else q + 1
  end.

(** The float64 nearest to a rational, ties to even: the rational is rounded
    to 53 significant bits, on a grid no finer than [2 ^ -1074].  This is
    the result of a float64 operation whose exact result is the rational,
    and of the conversion of an integer to a float.  Results beyond the
    largest float64, where Python raises [OverflowError] or gives an
    infinity, are left out: the rounding goes on with 53 bits there. *)
Definition f64 (q : Q) : Q :=
  let n := Z.abs (Qnum q) * 2 ^ 1074 in
  let d := Zpos (Qden q) in
  let shift := Z.max 0 (Z.log2 (n / d) - 52) in
  let m := round_half_even n (d * 2 ^ shift) in
  Qred (Qmake (Z.sgn (Qnum q) * m * 2 ^ shift) (Z.to_pos (2 ^ 1074))).

(** [np.arange(start, stop, step)] for integer bounds and a positive
    fractional step: an array of float64.  numpy stores [start] and
    [start + step] in the array and fills the rest from the two: the value
    of index [i] is [first + i * delta], where [delta] is the difference of
    the two, and each operation rounds.  The length is
    [ceil((stop - start) / step)]; it is computed on exact numbers, which
    is the length numpy computes in float64 as long as that length is below
    [2 ^ 52]. *)
Definition np_arange (start stop : Z) (step : Q) : list Q :=
  let n := Z.to_nat (Qceiling ((inject_Z stop - inject_Z start) / step)) in
  let first := f64 (inject_Z start) in
  let next := f64 (first + step) in
  let delta := f64 (next - first) in
  (λ i : nat,
     match i with
     | O => first
     | S O => next
     | _ => f64 (first + f64 (f64 (inject_Z (Z.of_nat i)) * delta))
     end) <$> seq 0 n.

(** ** Operations on the store *)

Definition read_list (l : loc) : M (list val) := λ σ,
  match heap σ !! l with
  | Some (OList xs) => (σ, Ok xs)
  | _ => (σ, Undefined)
  end.

Definition read_nested (l : loc) : M (list loc) := λ σ,
  match heap σ !! l with
  | Some (ONested ls) => (σ, Ok ls)
  | _ => (σ, Undefined)
  end.

Definition write_list (l : loc) (xs : list val) : M unit := λ σ,
  (set_heap (<[l := OList xs]> (heap σ)) σ, Ok ()).

(** A new list object, at a reference not in use. *)
Definition alloc_list (xs : list val) : M loc := λ σ,
  let c := fresh (dom (heap σ)) in
  (set_heap (<[c := OList xs]> (heap σ)) σ, Ok c).

(** [deepcopy(l)] of a flat list: a new list object with the same items
    (the items are immutable and need no copy). *)
Definition deepcopy (l : loc) : M loc :=
  xs ← read_list l;
  alloc_list xs.

(** [l.remove(v)] on the list object at [l]. *)
Definition remove_item (l : loc) (v : val) : M unit :=
  xs ← read_list l;
  xs' ← lift (list_remove v xs);
  write_list l xs'.

(** [self.ax.add_patch(p)] *)
Definition add_patch (p : patch) : M unit := λ σ, (emit [p] σ, Ok ()).

(** [plt.ylim()[1]] *)
Definition plt_ylim_top : M Q := λ σ, (σ, Ok (ylim_top σ)).

(** ** The class [secondary_structure_overlay] *)

(** The attributes [self.residue_numbers] and [self.ss_segment_list] refer to
    the caller's lists; [self.ax] is the axis of the state. *)
Record overlay := Overlay {
  residue_numbers : loc;
  ss_segment_list : loc
}.

Definition add_rectangle_patch (start : val) (length : Z) : M unit :=
  y_top ← plt_ylim_top;
  x ← lift (py_sub start (VInt 1));
  add_patch (Rectangle x (y_top + 0.08) length 0.0001).

Definition add_strand_patch (strand_start strand_end : val) : M unit :=
  y_top ← plt_ylim_top;
  let arrow_head_width := 0.1%Q in
  let arrow_head_length := 1.5%Q in
  x ← lift (py_sub strand_start (VInt 1));
  dx ← lift (py_sub strand_end strand_start);
  add_patch (FancyArrow x (y_top + 0.08) dx 0 arrow_head_length
               arrow_head_width (arrow_head_width / 2.5) true);;
  add_rectangle_patch strand_end 1.

Definition add_helix_patch (self : overlay) (helix_start helix_end : val)
  : M unit :=
  y_top ← plt_ylim_top;
  let height := 0.1%Q in
  let length := 0.75%Q in
  a ← lift (py_sub helix_start (VInt 1));
  b ← lift (py_sub helix_end (VInt 1));
  for_acc (np_arange a b length) (0, 180)
    (λ t_start '(st_theta, en_theta),
       let e := Arc (f64 (t_start + 0.25)) (y_top + 0.08) length height
                  (st_theta - 1) (en_theta + 1) in
       add_patch e;;
       mret (st_theta + 180, en_theta + 180));;
  rn ← read_list (residue_numbers self);
  last_res ← lift (getlast rn);
  last_num ← lift (py_int last_res);
  not_c_terminus ← lift (py_lt helix_end last_num);
  if not_c_terminus : bool then add_rectangle_patch helix_end 1 else mret ().

(** [self.ss_segment_list[x][k]] *)
Definition segment_item (self : overlay) (x k : nat) : M val :=
  segs ← read_nested (ss_segment_list self);
  l ← lift (getitem segs x);
  seg ← read_list l;
  lift (getitem seg k).

(** The body of the first loop, for the segment of index [x]. *)
Definition cover_segment (self : overlay)
    (residues_without_ss_assignment : loc) (x : nat) : M unit :=
  cls ← segment_item self x 0;
  if py_eq cls (VStr "Strand") then
    a ← segment_item self x 2;
    b ← segment_item self x 4;
    add_strand_patch a b;;
    a ← segment_item self x 2;
    b ← segment_item self x 4;
    ys ← lift (py_range_val a b);
    for_each ys (λ y, remove_item residues_without_ss_assignment (VInt y))
  else
    cls ← segment_item self x 0;
    if py_eq cls (VStr "AlphaHelix") then
      a ← segment_item self x 2;
      b ← segment_item self x 4;
      add_helix_patch self a b;;
      a ← segment_item self x 2;
      b ← segment_item self x 4;
      ys ← lift (py_range_val a b);
      for_each ys (λ y, remove_item residues_without_ss_assignment (VInt y))
    else mret ().

(** The body of the second loop, for the item of index [x] of the
    worklist. *)
Definition draw_connector (self : overlay)
    (residues_without_ss_assignment : loc) (x : nat) : M unit :=
  rw ← read_list residues_without_ss_assignment;
  v ← lift (getitem rw x);
  i ← lift (py_int v);
  rn ← read_list (residue_numbers self);
  first ← lift (getitem rn 0);
  if py_eq (VInt i) first then
    rw ← read_list residues_without_ss_assignment;
    v ← lift (getitem rw x);
    i ← lift (py_int v);
    add_rectangle_patch (VInt (i + 1)) 1
  else
    rw ← read_list residues_without_ss_assignment;
    v ← lift (getitem rw x);
    i ← lift (py_int v);
    add_rectangle_patch (VInt i) 1.

(** The first loop. *)
Definition cover_segments (self : overlay)
    (residues_without_ss_assignment : loc) : M unit :=
  segs ← read_nested (ss_segment_list self);
  for_each (seq 0 (length segs))
    (cover_segment self residues_without_ss_assignment).

(** The second loop. *)
Definition draw_connectors (self : overlay)
    (residues_without_ss_assignment : loc) : M unit :=
  rw ← read_list residues_without_ss_assignment;
  for_each (seq 0 (length rw))
    (draw_connector self residues_without_ss_assignment).

Definition find_ss_segments_and_generate_overlay (self : overlay) : M unit :=
  residues_without_ss_assignment ← deepcopy (residue_numbers self);
  cover_segments self residues_without_ss_assignment;;
  draw_connectors self residues_without_ss_assignment.

(** ** The function [read_secondary_structure_assignment]

    The function is modelled from the list [stride_lines] on; reading the
    file and the progress messages are left out. *)

(** [stride_lines[x][:3] == 'LOC'] *)
Definition is_LOC_line (line : string) : bool :=
  String.eqb (str_take 3 line) "LOC".

(** The first loop: the selected lines are appended to [LOC_lines] one by
    one. *)
Definition select_LOC_lines (stride_lines : list string) : list string :=
  foldl (λ LOC_lines line,
           if is_LOC_line line then LOC_lines ++ [line] else LOC_lines)
        [] stride_lines.

(** [v in xs] *)
Definition py_in (v : val) (xs : list val) : bool := existsb (py_eq v) xs.

(** [while "" in fields: fields.remove("")] *)
Equations? remove_empty_fields (fields : list val) : list val
  by wf (length fields) lt :=
  remove_empty_fields fields with Equations.Prop.Logic.inspect (py_in (VStr "") fields) := {
    | exist _ false _ => fields
    | exist _ true _ with Equations.Prop.Logic.inspect (list_remove (VStr "") fields) := {
        | exist _ (Ok fields') Hrm => remove_empty_fields fields'
        | exist _ _ _ => fields } }.
Proof.
  clear -Hrm. revert fields' Hrm.
  induction fields as [|x xs IH]; intros fields' Hrm; simpl in Hrm; [done|].
  destruct (py_eq x (VStr "")).
  - injection Hrm as <-. simpl. lia.
  - destruct (list_remove (VStr "") xs) as [ys| |] eqn:E; simpl in Hrm; try done.
    injection Hrm as <-. specialize (IH ys eq_refl). simpl. lia.
Qed.

(** The body of the second loop, for one selected line. *)
Definition interpret_LOC_line (line : string) : outcome (list val) :=
  let fields :=
    VStr <$> str_split " "
      (str_remove " B " (str_remove " A " (str_remove "~"
         (str_remove "LOC" (str_remove "-" line))))) in
  let fields := remove_empty_fields fields in
  v ← getitem fields 2;
  z ← py_int v;
  let fields := <[2%nat := VInt z]> fields in
  v ← getitem fields 4;
  z ← py_int v;
  let fields := <[4%nat := VInt z]> fields in
  Ok fields.

(** The second loop: the lines are interpreted in order, and the first
    exception ends the function. *)
Fixpoint interpret_LOC_lines (LOC_lines : list string)
  : outcome (list (list val)) :=
  match LOC_lines with
  | [] => Ok []
  | line :: rest =>
      record ← interpret_LOC_line line;
      records ← interpret_LOC_lines rest;
      Ok (record :: records)
  end.

Definition read_secondary_structure_assignment (stride_lines : list string)
  : outcome (list (list val)) :=
  let LOC_lines := select_LOC_lines stride_lines in
  let secondary_structure_summary := interpret_LOC_lines LOC_lines in
  secondary_structure_summary.

(** ** Vocabulary of the statements *)

(** What [add_rectangle_patch(p, 1)] draws: the connector "at residue [p]",
    a thin rectangle from [p - 1] to [p]. *)
Definition connector (y_top : Q) (p : Z) : patch :=
  Rectangle (p - 1) (y_top + 0.08) 1 0.0001.

(** The arrow of a strand from residue [s] to residue [e]. *)
Definition strand_arrow (y_top : Q) (s e : Z) : patch :=
  FancyArrow (s - 1) (y_top + 0.08) (e - s) 0 1.5 0.1 (0.1 / 2.5) true.

(** The horizontal extent of an arrow whose length includes its head: it
    starts at [x] and its head ends at [x + dx]. *)
Definition arrow_start (p : patch) : option Z :=
  match p with
  | FancyArrow x _ _ _ _ _ _ true => Some x
  | _ => None
  end.

Definition arrow_tip (p : patch) : option Z :=
  match p with
  | FancyArrow x _ dx _ _ _ _ true => Some (x + dx)
  | _ => None
  end.

(** The [i]-th half turn of a helix, for the loop value [t_start]. *)
Definition helix_arc (y_top : Q) (i : nat) (t_start : Q) : patch :=
  Arc (f64 (t_start + 0.25)) (y_top + 0.08) 0.75 0.1
      (180 * Z.of_nat i - 1) (180 * (Z.of_nat i + 1) + 1).

Definition helix_arcs (y_top : Q) (s e : Z) : list patch :=
  imap (helix_arc y_top) (np_arange (s - 1) (e - 1) 0.75).

Definition is_connector (p : patch) : bool :=
  match p with Rectangle _ _ _ _ => true | _ => false end.

Definition is_arrow (p : patch) : bool :=
  match p with FancyArrow _ _ _ _ _ _ _ _ => true | _ => false end.

(** The state after the worklist at [rw] has become [rem] and the patches
    [ps] have been added. *)
Definition upd (rw : loc) (rem : list val) (ps : list patch) (σ : state)
  : state :=
  State (<[rw := OList rem]> (heap σ)) (ax_patches σ ++ ps) (ylim_top σ).

(** The store holds the caller's lists: the residue numbers [track], and the
    segment records [segs] at the references [ls]. *)
Record inputs_at (self : overlay) (track : list val)
    (segs : list (list val)) (ls : list loc) (h : gmap loc obj) : Prop := {
  track_at : h !! residue_numbers self = Some (OList track);
  segs_at : h !! ss_segment_list self = Some (ONested ls);
  records_at : Forall2 (λ l seg, h !! l = Some (OList seg)) ls segs
}.

(** The invariant of both loops: the inputs are in place, and the worklist
    [rem] is a list object of its own at [rw]. *)
Record loop_inv (self : overlay) (rw : loc) (track : list val)
    (segs : list (list val)) (ls : list loc) (rem : list val) (σ : state)
  : Prop := {
  inv_inputs : inputs_at self track segs ls (heap σ);
  inv_worklist : heap σ !! rw = Some (OList rem);
  inv_track_ne : rw ≠ residue_numbers self;
  inv_segs_ne : rw ≠ ss_segment_list self;
  inv_records_ne : rw ∉ ls
}.

(** A state in which the caller has built the two lists and an empty
    axis. *)
Definition caller_self : overlay := Overlay 1 2.

Definition caller_refs (segs : list (list val)) : list loc :=
  (λ i : nat, Pos.of_nat (3 + i)) <$> seq 0 (length segs).

Definition caller_state (y_top : Q) (track : list val)
    (segs : list (list val)) : state :=
  let ls := caller_refs segs in
  let h0 : gmap loc obj := {[ 1%positive := OList track ]} in
  let h1 := foldr (λ '(l, seg) h, <[l := OList seg]> h) h0 (zip ls segs) in
  State (<[2%positive := ONested ls]> h1) [] y_top.

(** The patches a call has added to the axis. *)
Definition added (σ σ' : state) : list patch :=
  drop (length (ax_patches σ)) (ax_patches σ').

(** The worklist after the removal of the residues [ys] in turn, and the
    result of the removals: the first residue that is missing stops them. *)
Fixpoint remove_each (ys : list Z) (rem : list val)
  : list val * outcome unit :=
  match ys with
  | [] => (rem, Ok ())
  | y :: ys' =>
      match list_remove (VInt y) rem with
      | Ok rem' => remove_each ys' rem'
      | Raise e => (rem, Raise e)
      | Undefined => (rem, Undefined)
      end
  end.

(** The connectors of the second loop for the residues [rem], when the
    first residue of the track is [first]. *)
Definition connector_pass (y_top : Q) (first : Z) (rem : list Z)
  : list patch :=
  (λ r, if bool_decide (r = first) then connector y_top (r + 1)
        else connector y_top r) <$> rem.

(** A segment record of class [cls] with integer bounds [s] and [e]. *)
Definition segment_of (seg : list val) (cls : string) (s e : Z) : Prop :=
  seg !! 0%nat = Some (VStr cls) ∧ seg !! 2%nat = Some (VInt s)
  ∧ seg !! 4%nat = Some (VInt e).

(** The classes the overlay draws. *)
Definition recognized (cls : string) : Prop :=
  cls = "Strand" ∨ cls = "AlphaHelix".

Global Instance recognized_dec cls : Decision (recognized cls).
Proof. unfold recognized. apply _. Defined.

(** The segments the layout is specified for: a class name and two integer
    bounds at the positions 0, 2 and 4. *)
Definition typed_segment (seg : list val) : Prop :=
  ∃ cls s e, segment_of seg cls s e.

(** The patches drawn for a segment, when the last residue of the track is
    [last_num]. *)
Definition segment_patches (y_top : Q) (last_num : Z) (seg : list val)
  : list patch :=
  match seg !! 0%nat, seg !! 2%nat, seg !! 4%nat with
  | Some (VStr cls), Some (VInt s), Some (VInt e) =>
      if decide (cls = "Strand") then
        [strand_arrow y_top s e; connector y_top e]
      else if decide (cls = "AlphaHelix") then
        helix_arcs y_top s e
        ++ (if bool_decide (e < last_num) then [connector y_top e] else [])
      else []
  | _, _, _ => []
  end.

(** The residues taken off the worklist for a segment. *)
Definition covered (seg : list val) : list Z :=
  match seg !! 0%nat, seg !! 2%nat, seg !! 4%nat with
  | Some (VStr cls), Some (VInt s), Some (VInt e) =>
      if decide (recognized cls) then py_range s e else []
  | _, _, _ => []
  end.

(** The integers of a list of values. *)
Definition ints_of (vs : list val) : list Z :=
  omap (λ v, match v with VInt z => Some z | VStr _ => None end) vs.

(** What the body of the first loop does for a typed segment, as a function
    of the worklist: the new worklist, the patches and the result. *)
Definition cover_one (y_top : Q) (zs : list Z) (seg : list val)
    (rem : list val) : list val * list patch * outcome unit :=
  match seg !! 0%nat, seg !! 2%nat, seg !! 4%nat with
  | Some (VStr cls), Some (VInt s), Some (VInt e) =>
      if decide (cls = "Strand") then
        let r := remove_each (py_range s e) rem in
        (r.1, [strand_arrow y_top s e; connector y_top e], r.2)
      else if decide (cls = "AlphaHelix") then
        match last zs with
        | Some n =>
            let r := remove_each (py_range s e) rem in
            (r.1,
             helix_arcs y_top s e
             ++ (if bool_decide (e < n) then [connector y_top e] else []),
             r.2)
        | None => (rem, helix_arcs y_top s e, Raise IndexError)
        end
      else (rem, [], Ok ())
  | _, _, _ => (rem, [], Undefined)
  end.

Fixpoint cover_all (y_top : Q) (zs : list Z) (segs : list (list val))
    (rem : list val) : list val * list patch * outcome unit :=
  match segs with
  | [] => (rem, [], Ok ())
  | seg :: segs' =>
      match cover_one y_top zs seg rem with
      | (rem', ps, Ok _) =>
          let r := cover_all y_top zs segs' rem' in
          (r.1.1, ps ++ r.1.2, r.2)
      | r => r
      end
  end.

(** The whole method on a track of integers and typed segments. *)
Definition layout_view (y_top : Q) (zs : list Z) (segs : list (list val))
  : list val * list patch * outcome unit :=
  match cover_all y_top zs segs (VInt <$> zs) with
  | (rem, ps, Ok _) =>
      (rem,
       ps ++ connector_pass y_top (default 0 (head zs)) (ints_of rem),
       Ok ())
  | r => r
  end.

(** ** Effects seen from the loops

    Under the loop invariant a computation of the class reads the inputs,
    updates the worklist and adds patches.  A [view] gives the new
    worklist, the added patches and the result from the contents of the
    inputs and of the worklist alone. *)
Record env := Env {
  env_ylim : Q;
  env_track : list val;
  env_segs : list (list val)
}.

Definition view (A : Type) : Type :=
  env → list val → list val * list patch * outcome A.

Definition tracks {A} (self : overlay) (rw : loc) (m : M A) (f : view A)
  : Prop :=
  ∀ track segs ls rem σ,
    loop_inv self rw track segs ls rem σ →
    let r := f (Env (ylim_top σ) track segs) rem in
    m σ = (upd rw r.1.1 r.1.2 σ, r.2).

Definition view_pure {A} (o : env → list val → outcome A) : view A :=
  λ ρ rem, (rem, [], o ρ rem).

Definition view_bind {A B} (f : view A) (g : A → view B) : view B :=
  λ ρ rem,
    match f ρ rem with
    | (rem', ps, Ok a) =>
        let r := g a ρ rem' in (r.1.1, ps ++ r.1.2, r.2)
    | (rem', ps, Raise e) => (rem', ps, Raise e)
    | (rem', ps, Undefined) => (rem', ps, Undefined)
    end.

Fixpoint view_for_each {A} (xs : list A) (g : A → view unit) : view unit :=
  match xs with
  | [] => view_pure (λ _ _, Ok ())
  | x :: xs' => view_bind (g x) (λ _, view_for_each xs' g)
  end.

Fixpoint view_for_acc {A S} (xs : list A) (s : S) (g : A → S → view S)
  : view S :=
  match xs with
  | [] => view_pure (λ _ _, Ok s)
  | x :: xs' => view_bind (g x s) (λ s', view_for_acc xs' s' g)
  end.

(** A computation that changes no list object other than the one at
    [rw]. *)
Definition only_writes {A} (rw : loc) (m : M A) : Prop :=
  ∀ σ l, l ≠ rw → heap (m σ).1 !! l = heap σ !! l.

(** ** Vocabulary for the records of a stride file *)

(** The five deletions applied to a selected line, in the order of the
    source. *)
Definition strip_noise (line : string) : string :=
  str_remove " B " (str_remove " A " (str_remove "~"
    (str_remove "LOC" (str_remove "-" line)))).

(** The maximal runs of characters that are not separators. *)
Fixpoint words (sep : ascii → bool) (s : string) : list string :=
  match s with
  | "" => []
  | String c s' =>
      if sep c then words sep s'
      else match s' with
           | "" => [String c ""]
           | String d _ =>
               if sep d then String c "" :: words sep s'
               else match words sep s' with
                    | w :: ws => String c w :: ws
                    | [] => [String c ""]
                    end
           end
  end.

Definition is_blank (c : ascii) : bool := Ascii.eqb c " ".

(** The record made of a list of tokens: tokens 2 and 4 as integers, the
    others as they are. *)
Definition record_of_tokens (toks : list string) : outcome (list val) :=
  match toks with
  | t0 :: t1 :: t2 :: rest =>
      match int_of_string t2 with
      | None => Raise ValueError
      | Some z2 =>
          match rest with
          | t3 :: t4 :: more =>
              match int_of_string t4 with
              | None => Raise ValueError
              | Some z4 =>
                  Ok (VStr t0 :: VStr t1 :: VInt z2 :: VStr t3 :: VInt z4
                        :: (VStr <$> more))
              end
          | _ => Raise IndexError
          end
      end
  | _ => Raise IndexError
  end.

(** The results in order, up to the first exception. *)
Fixpoint all_ok {A} (os : list (outcome A)) : outcome (list A) :=
  match os with
  | [] => Ok []
  | o :: os' => a ← o; rest ← all_ok os'; Ok (a :: rest)
  end.

(** The records as the specification words them, with a parameter for what
    counts as a separator of tokens. *)
Definition records_by (sep : ascii → bool) (stride_lines : list string)
  : outcome (list (list val)) :=
  all_ok ((λ line, record_of_tokens (words sep (strip_noise line)))
            <$> filter (λ line, str_take 3 line = "LOC") stride_lines).

(** ** Inputs of the scenarios *)

Definition track_1_10 : list Z := seqZ 1 10.
Definition track_5_9 : list Z := seqZ 5 5.

Definition strand_2_5 : list val :=
  [VStr "Strand"; VStr "GLY"; VInt 2; VStr "LYS"; VInt 5].

(** The same record with its residue numbers as strings, as the docstring
    of the class writes it. *)
Definition strand_2_5_str : list val :=
  [VStr "Strand"; VStr "GLY"; VStr "2"; VStr "LYS"; VStr "5"].

Definition helix_8_11 : list val :=
  [VStr "AlphaHelix"; VStr "GLY"; VInt 8; VStr "LYS"; VInt 11].

Definition track_1_2_2_3 : list Z := [1; 2; 2; 3].

Definition strand_2_3 : list val :=
  [VStr "Strand"; VStr "GLY"; VInt 2; VStr "LYS"; VInt 3].

Definition strand_5_7 : list val :=
  [VStr "Strand"; VStr "GLY"; VInt 5; VStr "LYS"; VInt 7].

Definition helix_line : string :=
  "LOC  AlphaHelix GLU    79 A      MET   99 A   ".

(** A record whose first separator is a tab character. *)
Definition tab : ascii := ascii_of_nat 9.

Definition tabbed_line : string :=
  "LOC" +:+ String tab "AlphaHelix GLU 79 MET 99".

Definition negative_line : string :=
  "LOC  Strand     GLY   -2 A      LYS    5 A   ".

(** ** The constructor of the class

    [__init__] keeps references to the caller's lists (no copy is made
    here) and runs the method; the two progress messages are left out. *)
Definition __init__ (residue_numbers ss_segment_list : loc) : M overlay :=
  let self := Overlay residue_numbers ss_segment_list in
  find_ss_segments_and_generate_overlay self;;
  mret self.

(** ** Vocabulary for the axis *)

(** The height at which a patch is drawn. *)
Definition patch_y (p : patch) : Q :=
  match p with
  | FancyArrow _ y _ _ _ _ _ _ => y
  | Arc _ y _ _ _ _ => y
  | Rectangle _ y _ _ => y
  end.

(** A computation that, started with the top of the axis at [y], leaves
    the limits of the axis alone and only adds patches, all of them at 0.08
    above [y]. *)
Definition draws_at {A} (y : Q) (m : M A) : Prop :=
  ∀ σ, ylim_top σ = y →
       ylim_top (m σ).1 = y
       ∧ ∃ ps, ax_patches (m σ).1 = ax_patches σ ++ ps
               ∧ Forall (λ p, patch_y p = (y + 0.08)%Q) ps.

(** The connectors of the second loop for a worklist of values that
    [int()] reads as [zs], when the first item of the track is [first]. *)
Definition connector_pass_val (y_top : Q) (first : val) (zs : list Z)
  : list patch :=
  (λ r, if py_eq (VInt r) first then connector y_top (r + 1)
        else connector y_top r) <$> zs.

(** A segment record whose class is neither ['Strand'] nor
    ['AlphaHelix']; nothing is asked of its other fields. *)
Definition unrecognized_segment (seg : list val) : Prop :=
  ∃ cls, seg !! 0%nat = Some cls
         ∧ cls ≠ VStr "Strand" ∧ cls ≠ VStr "AlphaHelix".

(** A record of a recognized class that cannot be read: it is empty, or it
    has fewer than five fields. *)
Definition short_segment (seg : list val) : Prop :=
  seg = []
  ∨ ∃ cls, seg !! 0%nat = Some (VStr cls) ∧ recognized cls
           ∧ (length seg < 5)%nat.

(** A record of a recognized class with five fields or more, one of whose
    bounds is a string. *)
Definition string_bound_segment (seg : list val) : Prop :=
  ∃ cls a b, seg !! 0%nat = Some (VStr cls) ∧ recognized cls
             ∧ seg !! 2%nat = Some a ∧ seg !! 4%nat = Some b
             ∧ ((∃ s, a = VStr s) ∨ (∃ s, b = VStr s)).

(** ** Inputs of further scenarios *)

Definition turn_6_8 : list val :=
  [VStr "TurnI"; VStr "GLY"; VInt 6; VStr "LYS"; VInt 8].

Definition short_strand : list val := [VStr "Strand"; VStr "GLY"; VInt 2].

Definition helix_2_5 : list val :=
  [VStr "AlphaHelix"; VStr "GLY"; VInt 2; VStr "LYS"; VInt 5].

Definition strand_4_4 : list val :=
  [VStr "Strand"; VStr "GLY"; VInt 4; VStr "LYS"; VInt 4].

Definition is_arc (p : patch) : bool :=
  match p with Arc _ _ _ _ _ _ => true | _ => false end.

Definition numeral_track : list val := [VStr "5"; VStr "6"; VStr "7"].

Definition header_line : string := "REM  --------------- Secondary structure summary".
Definition strand_line : string := "LOC  Strand       GLY     2 A      LYS      5 A          ~~~~".
Definition short_line : string := "LOC  Strand       LYS     2".

(** ** Basic facts on the monad and the state *)

Lemma bind_ok {A B} (m : M A) (f : A → M B) σ σ' a :
  m σ = (σ', Ok a) → (m ≫= f) σ = f a σ'.
Proof. intros H. unfold mbind, M_bind. by rewrite H. Qed.

Lemma bind_raise {A B} (m : M A) (f : A → M B) σ σ' e :
  m σ = (σ', Raise e) → (m ≫= f) σ = (σ', Raise e).
Proof. intros H. unfold mbind, M_bind. by rewrite H. Qed.

Lemma bind_undefined {A B} (m : M A) (f : A → M B) σ σ' :
  m σ = (σ', Undefined) → (m ≫= f) σ = (σ', Undefined).
Proof. intros H. unfold mbind, M_bind. by rewrite H. Qed.

Lemma emit_nil σ : emit [] σ = σ.
Proof. destruct σ. unfold emit. simpl. by rewrite app_nil_r. Qed.

Lemma emit_emit ps qs σ : emit qs (emit ps σ) = emit (ps ++ qs) σ.
Proof. unfold emit. simpl. by rewrite app_assoc. Qed.

Lemma added_emit ps σ : added σ (emit ps σ) = ps.
Proof. unfold added, emit. simpl. by rewrite drop_app_length. Qed.

Lemma add_rectangle_patch_int p len σ :
  add_rectangle_patch (VInt p) len σ
  = (emit [Rectangle (p - 1) (ylim_top σ + 0.08) len 0.0001] σ, Ok ()).
Proof. reflexivity. Qed.

Lemma add_strand_patch_int s e σ :
  add_strand_patch (VInt s) (VInt e) σ
  = (emit [strand_arrow (ylim_top σ) s e; connector (ylim_top σ) e] σ, Ok ()).
Proof.
  change (add_strand_patch (VInt s) (VInt e) σ)
    with (emit [connector (ylim_top σ) e]
            (emit [strand_arrow (ylim_top σ) s e] σ), Ok ()).
  by rewrite emit_emit.
Qed.

Lemma upd_upd rw r1 p1 r2 p2 σ :
  upd rw r2 p2 (upd rw r1 p1 σ) = upd rw r2 (p1 ++ p2) σ.
Proof. unfold upd. simpl. by rewrite insert_insert_eq, app_assoc. Qed.

Lemma upd_id rw rem σ :
  heap σ !! rw = Some (OList rem) → upd rw rem [] σ = σ.
Proof.
  intros H. destruct σ as [h ps y]. unfold upd. simpl in *.
  by rewrite insert_id, app_nil_r.
Qed.

Lemma emit_upd rw rem ps qs σ :
  emit qs (upd rw rem ps σ) = upd rw rem (ps ++ qs) σ.
Proof. unfold emit, upd. simpl. by rewrite app_assoc. Qed.

Lemma emit_as_upd rw rem ps σ :
  heap σ !! rw = Some (OList rem) → emit ps σ = upd rw rem ps σ.
Proof.
  intros H. destruct σ as [h qs y]. unfold upd, emit. simpl in *.
  by rewrite insert_id.
Qed.

Lemma added_upd rw rem ps σ : added σ (upd rw rem ps σ) = ps.
Proof. unfold added, upd. simpl. by rewrite drop_app_length. Qed.

Lemma inputs_at_insert self track segs ls h rw o :
  rw ≠ residue_numbers self → rw ≠ ss_segment_list self → rw ∉ ls →
  inputs_at self track segs ls h →
  inputs_at self track segs ls (<[rw := o]> h).
Proof.
  intros Hr Hs Hl [Ht Hn Hrec]. split.
  - by rewrite lookup_insert_ne.
  - by rewrite lookup_insert_ne.
  - clear Ht Hn. induction Hrec as [|l seg ls' segs' Hl' _ IH]; [constructor|].
    apply not_elem_of_cons in Hl as [Hne Hl]. constructor; [|by apply IH].
    by rewrite lookup_insert_ne.
Qed.

Lemma loop_inv_upd self rw track segs ls rem rem' ps σ :
  loop_inv self rw track segs ls rem σ →
  loop_inv self rw track segs ls rem' (upd rw rem' ps σ).
Proof.
  intros [Hin Hw Hr Hs Hl]. split; try done.
  - simpl. by apply inputs_at_insert.
  - simpl. apply lookup_insert_eq.
Qed.

Lemma records_lookup ls segs (h : gmap loc obj) x :
  Forall2 (λ l seg, h !! l = Some (OList seg)) ls segs →
  match ls !! x with
  | Some l => ∃ seg, segs !! x = Some seg ∧ h !! l = Some (OList seg)
  | None => segs !! x = None
  end.
Proof.
  intros H. revert x. induction H as [|l seg ls' segs' Hl _ IH]; intros [|x]; simpl; eauto.
  apply IH.
Qed.

(** Under the invariant, reading the inputs and the worklist gives their
    contents and leaves the state as it is. *)
Lemma read_track_inv self rw track segs ls rem σ :
  loop_inv self rw track segs ls rem σ →
  read_list (residue_numbers self) σ = (σ, Ok track).
Proof. intros [[Ht _ _] _ _ _ _]. unfold read_list. by rewrite Ht. Qed.

Lemma read_refs_inv self rw track segs ls rem σ :
  loop_inv self rw track segs ls rem σ →
  read_nested (ss_segment_list self) σ = (σ, Ok ls).
Proof. intros [[_ Hs _] _ _ _ _]. unfold read_nested. by rewrite Hs. Qed.

Lemma read_worklist_inv self rw track segs ls rem σ :
  loop_inv self rw track segs ls rem σ →
  read_list rw σ = (σ, Ok rem).
Proof. intros [_ Hw _ _ _]. unfold read_list. by rewrite Hw. Qed.

Lemma segment_item_inv self rw track segs ls rem σ x k :
  loop_inv self rw track segs ls rem σ →
  segment_item self x k σ = (σ, seg ← getitem segs x; getitem seg k).
Proof.
  intros Hinv. unfold segment_item.
  rewrite (bind_ok _ _ _ _ _ (read_refs_inv _ _ _ _ _ _ _ Hinv)).
  destruct Hinv as [[_ _ Hrec] _ _ _ _].
  pose proof (records_lookup _ _ _ x Hrec) as Hx.
  unfold getitem. destruct (ls !! x) as [l|].
  - destruct Hx as (seg & -> & Hl). simpl.
    unfold mbind at 1, M_bind, lift at 1. unfold mbind at 1, M_bind, read_list.
    by rewrite Hl.
  - rewrite Hx. reflexivity.
Qed.

(** ** The removal loop *)

Lemma remove_item_run rw v rem σ :
  heap σ !! rw = Some (OList rem) →
  remove_item rw v σ =
    match list_remove v rem with
    | Ok rem' => (upd rw rem' [] σ, Ok ())
    | Raise e => (σ, Raise e)
    | Undefined => (σ, Undefined)
    end.
Proof.
  intros H. unfold remove_item, mbind, M_bind, read_list, lift, write_list.
  rewrite H. destruct (list_remove v rem); try done.
  unfold upd, set_heap. by rewrite app_nil_r.
Qed.

Lemma for_each_remove rw ys : ∀ rem σ,
  heap σ !! rw = Some (OList rem) →
  for_each ys (λ y, remove_item rw (VInt y)) σ
  = (upd rw (remove_each ys rem).1 [] σ, (remove_each ys rem).2).
Proof.
  induction ys as [|y ys IH]; intros rem σ H; simpl.
  - by rewrite (upd_id _ _ _ H).
  - pose proof (remove_item_run rw (VInt y) rem σ H) as Hrun.
    destruct (list_remove (VInt y) rem) as [rem'| |]; simpl.
    + rewrite (bind_ok _ _ _ _ _ Hrun). rewrite (IH rem').
      * by rewrite upd_upd.
      * simpl. apply lookup_insert_eq.
    + rewrite (bind_raise _ _ _ _ _ Hrun). by rewrite (upd_id _ _ _ H).
    + rewrite (bind_undefined _ _ _ _ Hrun). by rewrite (upd_id _ _ _ H).
Qed.

(** ** The connector loop *)

Lemma draw_connector_run self rw zs first rest x r σ :
  heap σ !! rw = Some (OList (VInt <$> zs)) →
  heap σ !! residue_numbers self = Some (OList (VInt first :: rest)) →
  zs !! x = Some r →
  draw_connector self rw x σ
  = (emit [if bool_decide (r = first) then connector (ylim_top σ) (r + 1)
           else connector (ylim_top σ) r] σ, Ok ()).
Proof.
  intros Hw Ht Hx.
  unfold draw_connector, mbind, M_bind, read_list, lift, getitem.
  rewrite Hw, Ht, list_lookup_fmap, Hx. simpl.
  unfold py_eq. destruct (decide (r = first)) as [->|Hne].
  - rewrite !bool_decide_eq_true_2 by done.
    rewrite Hw. simpl. rewrite list_lookup_fmap, Hx. reflexivity.
  - rewrite !bool_decide_eq_false_2 by congruence.
    rewrite Hw. simpl. rewrite list_lookup_fmap, Hx. reflexivity.
Qed.

Lemma draw_connectors_from self rw zs first rest suf : ∀ pre σ,
  zs = pre ++ suf →
  heap σ !! rw = Some (OList (VInt <$> zs)) →
  heap σ !! residue_numbers self = Some (OList (VInt first :: rest)) →
  for_each (seq (length pre) (length suf)) (draw_connector self rw) σ
  = (emit (connector_pass (ylim_top σ) first suf) σ, Ok ()).
Proof.
  induction suf as [|r suf IH]; intros pre σ Hzs Hw Ht; simpl.
  - by rewrite emit_nil.
  - assert (zs !! length pre = Some r) as Hx.
    { rewrite Hzs. by rewrite list_lookup_middle. }
    rewrite (bind_ok _ _ _ _ _ (draw_connector_run _ _ _ _ _ _ _ _ Hw Ht Hx)).
    specialize (IH (pre ++ [r])). rewrite length_app in IH. simpl in IH.
    rewrite Nat.add_1_r in IH. rewrite IH; try done.
    + by rewrite emit_emit.
    + by rewrite <- app_assoc.
Qed.

Lemma draw_connectors_run self rw zs first rest σ :
  heap σ !! rw = Some (OList (VInt <$> zs)) →
  heap σ !! residue_numbers self = Some (OList (VInt first :: rest)) →
  draw_connectors self rw σ
  = (emit (connector_pass (ylim_top σ) first zs) σ, Ok ()).
Proof.
  intros Hw Ht. unfold draw_connectors.
  assert (read_list rw σ = (σ, Ok (VInt <$> zs))) as Hr.
  { unfold read_list. by rewrite Hw. }
  rewrite (bind_ok _ _ _ _ _ Hr). rewrite length_fmap.
  by apply (draw_connectors_from self rw zs first rest zs []).
Qed.

Lemma draw_connectors_empty self rw σ :
  heap σ !! rw = Some (OList []) → draw_connectors self rw σ = (σ, Ok ()).
Proof.
  intros Hw. unfold draw_connectors, mbind, M_bind, read_list. by rewrite Hw.
Qed.

(** ** The helix *)

Lemma helix_arcs_loop y ts : ∀ (k : nat) σ,
  for_acc ts (180 * Z.of_nat k, 180 * (Z.of_nat k + 1))
    (λ t_start '(st_theta, en_theta),
       let e := Arc (f64 (t_start + 0.25)) (y + 0.08) 0.75 0.1
                  (st_theta - 1) (en_theta + 1) in
       add_patch e;;
       mret (st_theta + 180, en_theta + 180)) σ
  = (emit (imap (λ i, helix_arc y (k + i)) ts) σ,
     Ok (180 * Z.of_nat (k + length ts),
         180 * (Z.of_nat (k + length ts) + 1))).
Proof.
  induction ts as [|t ts IH]; intros k σ; simpl.
  - rewrite emit_nil, Nat.add_0_r. reflexivity.
  - unfold mbind at 1, M_bind. simpl.
    replace (180 * Z.of_nat k + 180) with (180 * Z.of_nat (S k)) by lia.
    replace (180 * (Z.of_nat k + 1) + 180)
      with (180 * (Z.of_nat (S k) + 1)) by lia.
    rewrite IH, emit_emit. simpl. rewrite Nat.add_0_r.
    replace (k + S (length ts))%nat with (S k + length ts)%nat by lia.
    do 3 f_equal. apply imap_ext. intros i x _. simpl.
    by replace (k + S i)%nat with (S (k + i)) by lia.
Qed.

Lemma add_helix_patch_int self s e track v n σ :
  heap σ !! residue_numbers self = Some (OList track) →
  last track = Some v → py_int v = Ok n →
  add_helix_patch self (VInt s) (VInt e) σ
  = (emit (helix_arcs (ylim_top σ) s e
           ++ (if bool_decide (e < n) then [connector (ylim_top σ) e]
               else [])) σ, Ok ()).
Proof.
  intros Ht Hl Hn. unfold add_helix_patch.
  unfold mbind at 1, M_bind at 1, plt_ylim_top.
  unfold mbind at 1, M_bind at 1, lift at 1. simpl.
  unfold mbind at 1, M_bind at 1, lift at 1. simpl.
  unfold mbind at 1, M_bind at 1.
  rewrite (helix_arcs_loop (ylim_top σ) _ 0 σ).
  unfold mbind, M_bind, read_list, lift, getlast. simpl.
  rewrite Ht, Hl, Hn. simpl.
  destruct (Z.ltb_spec e n).
  - rewrite bool_decide_eq_true_2 by done.
    rewrite add_rectangle_patch_int. by rewrite emit_emit.
  - rewrite bool_decide_eq_false_2 by lia.
    by rewrite app_nil_r.
Qed.

Lemma add_helix_patch_empty_track self s e σ :
  heap σ !! residue_numbers self = Some (OList []) →
  add_helix_patch self (VInt s) (VInt e) σ
  = (emit (helix_arcs (ylim_top σ) s e) σ, Raise IndexError).
Proof.
  intros Ht. unfold add_helix_patch.
  unfold mbind at 1, M_bind at 1, plt_ylim_top.
  unfold mbind at 1, M_bind at 1, lift at 1. simpl.
  unfold mbind at 1, M_bind at 1, lift at 1. simpl.
  unfold mbind at 1, M_bind at 1.
  rewrite (helix_arcs_loop (ylim_top σ) _ 0 σ).
  unfold mbind, M_bind, read_list, lift, getlast. simpl.
  by rewrite Ht.
Qed.

(** ** The loop over the segments *)

Lemma upd_emit rw rem ps qs σ :
  upd rw rem qs (emit ps σ) = upd rw rem (ps ++ qs) σ.
Proof. unfold emit, upd. simpl. by rewrite app_assoc. Qed.

Lemma loop_inv_emit self rw track segs ls rem ps σ :
  loop_inv self rw track segs ls rem σ →
  loop_inv self rw track segs ls rem (emit ps σ).
Proof. intros [Hin Hw Hr Hs Hl]. by split. Qed.

Lemma segment_item_ok self rw track segs ls rem σ x k seg v :
  loop_inv self rw track segs ls rem σ →
  segs !! x = Some seg → seg !! k = Some v →
  segment_item self x k σ = (σ, Ok v).
Proof.
  intros Hinv Hx Hk. rewrite (segment_item_inv _ _ _ _ _ _ _ _ _ Hinv).
  unfold getitem. rewrite Hx. simpl. by rewrite Hk.
Qed.

Lemma removal_after_patches self rw track segs ls rem σ ps s e :
  loop_inv self rw track segs ls rem σ →
  for_each (py_range s e) (λ y, remove_item rw (VInt y)) (emit ps σ)
  = (upd rw (remove_each (py_range s e) rem).1 ps σ,
     (remove_each (py_range s e) rem).2).
Proof.
  intros Hinv. rewrite (for_each_remove rw _ rem).
  - rewrite upd_emit. by rewrite app_nil_r.
  - simpl. apply (inv_worklist _ _ _ _ _ _ _ Hinv).
Qed.

Lemma cover_segment_typed self rw zs segs ls rem σ x seg :
  loop_inv self rw (VInt <$> zs) segs ls rem σ →
  segs !! x = Some seg → typed_segment seg →
  let r := cover_one (ylim_top σ) zs seg rem in
  cover_segment self rw x σ = (upd rw r.1.1 r.1.2 σ, r.2).
Proof.
  intros Hinv Hx (cls & s & e & H0 & H2 & H4). unfold cover_one.
  rewrite H0, H2, H4. unfold cover_segment.
  rewrite (bind_ok _ _ _ _ _ (segment_item_ok _ _ _ _ _ _ _ _ _ _ _ Hinv Hx H0)).
  unfold py_eq. destruct (decide (cls = "Strand")) as [->|Hns].
  - rewrite bool_decide_eq_true_2 by done.
    rewrite (bind_ok _ _ _ _ _ (segment_item_ok _ _ _ _ _ _ _ _ _ _ _ Hinv Hx H2)).
    rewrite (bind_ok _ _ _ _ _ (segment_item_ok _ _ _ _ _ _ _ _ _ _ _ Hinv Hx H4)).
    rewrite (bind_ok _ _ _ _ _ (add_strand_patch_int s e σ)).
    pose proof (loop_inv_emit _ _ _ _ _ _
      [strand_arrow (ylim_top σ) s e; connector (ylim_top σ) e] _ Hinv) as Hinv'.
    rewrite (bind_ok _ _ _ _ _ (segment_item_ok _ _ _ _ _ _ _ _ _ _ _ Hinv' Hx H2)).
    rewrite (bind_ok _ _ _ _ _ (segment_item_ok _ _ _ _ _ _ _ _ _ _ _ Hinv' Hx H4)).
    unfold mbind at 1, M_bind, lift at 1. simpl.
    by apply (removal_after_patches _ _ _ _ _ _ _ _ _ _ Hinv).
  - rewrite bool_decide_eq_false_2 by congruence.
    rewrite (bind_ok _ _ _ _ _ (segment_item_ok _ _ _ _ _ _ _ _ _ _ _ Hinv Hx H0)).
    destruct (decide (cls = "AlphaHelix")) as [->|Hnh].
    + rewrite bool_decide_eq_true_2 by done.
      rewrite (bind_ok _ _ _ _ _ (segment_item_ok _ _ _ _ _ _ _ _ _ _ _ Hinv Hx H2)).
      rewrite (bind_ok _ _ _ _ _ (segment_item_ok _ _ _ _ _ _ _ _ _ _ _ Hinv Hx H4)).
      pose proof (track_at _ _ _ _ _ (inv_inputs _ _ _ _ _ _ _ Hinv)) as Ht.
      destruct (last zs) as [n|] eqn:Hlast.
      * assert (last (VInt <$> zs) = Some (VInt n)) as Hl.
        { by rewrite fmap_last, Hlast. }
        rewrite (bind_ok _ _ _ _ _
          (add_helix_patch_int _ s e _ _ n σ Ht Hl eq_refl)).
        set (ps := helix_arcs _ _ _ ++ _).
        pose proof (loop_inv_emit _ _ _ _ _ _ ps _ Hinv) as Hinv'.
        rewrite (bind_ok _ _ _ _ _ (segment_item_ok _ _ _ _ _ _ _ _ _ _ _ Hinv' Hx H2)).
        rewrite (bind_ok _ _ _ _ _ (segment_item_ok _ _ _ _ _ _ _ _ _ _ _ Hinv' Hx H4)).
        unfold mbind at 1, M_bind, lift at 1. simpl.
        by apply (removal_after_patches _ _ _ _ _ _ _ _ _ _ Hinv).
      * apply last_None in Hlast. subst zs. simpl in Ht.
        rewrite (bind_raise _ _ _ _ _ (add_helix_patch_empty_track _ s e σ Ht)).
        simpl. f_equal.
        apply emit_as_upd, (inv_worklist _ _ _ _ _ _ _ Hinv).
    + rewrite bool_decide_eq_false_2 by congruence. simpl.
      unfold mret, M_ret. f_equal. symmetry. apply upd_id, (inv_worklist _ _ _ _ _ _ _ Hinv).
Qed.

Lemma cover_segments_from self rw zs segs ls suf : ∀ pre rem σ,
  segs = pre ++ suf →
  loop_inv self rw (VInt <$> zs) segs ls rem σ →
  Forall typed_segment suf →
  let R := cover_all (ylim_top σ) zs suf rem in
  for_each (seq (length pre) (length suf)) (cover_segment self rw) σ
  = (upd rw R.1.1 R.1.2 σ, R.2).
Proof.
  induction suf as [|seg suf IH]; intros pre rem σ Hsegs Hinv Hty; simpl.
  - unfold mret, M_ret. f_equal. symmetry.
    apply upd_id, (inv_worklist _ _ _ _ _ _ _ Hinv).
  - apply Forall_cons in Hty as [Hseg Hty].
    assert (segs !! length pre = Some seg) as Hx.
    { rewrite Hsegs. by rewrite list_lookup_middle. }
    pose proof (cover_segment_typed _ _ _ _ _ _ _ _ _ Hinv Hx Hseg) as Hrun.
    simpl in Hrun.
    destruct (cover_one (ylim_top σ) zs seg rem) as [[rem' ps] [[]| |]] eqn:E;
      simpl in Hrun.
    + rewrite (bind_ok _ _ _ _ _ Hrun).
      specialize (IH (pre ++ [seg]) rem' (upd rw rem' ps σ)).
      rewrite length_app in IH. simpl in IH. rewrite Nat.add_1_r in IH.
      rewrite IH; try done.
      * simpl. by rewrite upd_upd.
      * by rewrite <- app_assoc.
      * by apply (loop_inv_upd _ _ _ _ _ rem).
    + by rewrite (bind_raise _ _ _ _ _ Hrun).
    + by rewrite (bind_undefined _ _ _ _ Hrun).
Qed.

Lemma cover_segments_run self rw zs segs ls rem σ :
  loop_inv self rw (VInt <$> zs) segs ls rem σ →
  Forall typed_segment segs →
  let R := cover_all (ylim_top σ) zs segs rem in
  cover_segments self rw σ = (upd rw R.1.1 R.1.2 σ, R.2).
Proof.
  intros Hinv Hty. unfold cover_segments.
  rewrite (bind_ok _ _ _ _ _ (read_refs_inv _ _ _ _ _ _ _ Hinv)).
  pose proof (records_at _ _ _ _ _ (inv_inputs _ _ _ _ _ _ _ Hinv)) as Hrec.
  rewrite (Forall2_length _ _ _ Hrec).
  by apply (cover_segments_from self rw zs segs ls segs []).
Qed.

(** ** What the removals leave *)

Lemma ints_of_fmap zs : ints_of (VInt <$> zs) = zs.
Proof.
  induction zs as [|z zs IH]; [done|].
  unfold ints_of in *. simpl. f_equal. exact IH.
Qed.

Lemma list_remove_ints y zs rem' :
  list_remove (VInt y) (VInt <$> zs) = Ok rem' →
  rem' = VInt <$> ints_of rem'.
Proof.
  revert rem'. induction zs as [|z zs IH]; intros rem' H; simpl in H; [done|].
  change (list_fmap Z val VInt zs) with (VInt <$> zs) in H.
  destruct (py_eq (VInt z) (VInt y)).
  - injection H as <-. by rewrite ints_of_fmap.
  - destruct (list_remove (VInt y) (VInt <$> zs)) as [r| |]; simpl in H; try done.
    injection H as <-. specialize (IH r eq_refl).
    unfold ints_of in *. simpl. f_equal. exact IH.
Qed.

Lemma list_remove_sublist v rem rem' :
  list_remove v rem = Ok rem' → sublist rem' rem.
Proof.
  revert rem'. induction rem as [|x rem IH]; intros rem' H; simpl in H; [done|].
  destruct (py_eq x v).
  - injection H as <-. by apply sublist_cons.
  - destruct (list_remove v rem) as [r| |]; simpl in H; try done.
    injection H as <-. apply sublist_skip. by apply IH.
Qed.

Lemma remove_each_ints ys : ∀ rem,
  rem = VInt <$> ints_of rem →
  (remove_each ys rem).1 = VInt <$> ints_of (remove_each ys rem).1.
Proof.
  induction ys as [|y ys IH]; intros rem Hrem; simpl; [done|].
  destruct (list_remove (VInt y) rem) as [rem'| |] eqn:E; simpl; try done.
  apply IH. rewrite Hrem in E. by apply list_remove_ints in E.
Qed.

Lemma remove_each_sublist ys : ∀ rem, sublist (remove_each ys rem).1 rem.
Proof.
  induction ys as [|y ys IH]; intros rem; simpl; [done|].
  destruct (list_remove (VInt y) rem) as [rem'| |] eqn:E; simpl; try done.
  etrans; [apply IH|]. by apply list_remove_sublist in E.
Qed.

Lemma cover_one_ints y zs seg rem :
  rem = VInt <$> ints_of rem →
  (cover_one y zs seg rem).1.1 = VInt <$> ints_of (cover_one y zs seg rem).1.1.
Proof.
  intros Hrem. unfold cover_one.
  repeat case_match; simpl; try done; by apply remove_each_ints.
Qed.

Lemma cover_one_sublist y zs seg rem :
  sublist (cover_one y zs seg rem).1.1 rem.
Proof.
  unfold cover_one.
  repeat case_match; simpl; try done; by apply remove_each_sublist.
Qed.

Lemma cover_all_ints y zs segs : ∀ rem,
  rem = VInt <$> ints_of rem →
  (cover_all y zs segs rem).1.1 = VInt <$> ints_of (cover_all y zs segs rem).1.1.
Proof.
  induction segs as [|seg segs IH]; intros rem Hrem; simpl; [done|].
  pose proof (cover_one_ints y zs seg rem Hrem) as H1.
  destruct (cover_one y zs seg rem) as [[rem' ps] [[]| |]]; simpl in *; try done.
  by apply IH.
Qed.

Lemma cover_all_sublist y zs segs : ∀ rem,
  sublist (cover_all y zs segs rem).1.1 rem.
Proof.
  induction segs as [|seg segs IH]; intros rem; simpl; [done|].
  pose proof (cover_one_sublist y zs seg rem) as H1.
  destruct (cover_one y zs seg rem) as [[rem' ps] [[]| |]]; simpl in *; try done.
  etrans; [apply IH|done].
Qed.

(** ** The whole method on typed inputs *)

Lemma inputs_in_dom self track segs ls h :
  inputs_at self track segs ls h →
  residue_numbers self ∈ dom h ∧ ss_segment_list self ∈ dom h
  ∧ ∀ l, l ∈ ls → l ∈ dom h.
Proof.
  intros [Ht Hs Hrec]. split_and!.
  - apply elem_of_dom. eauto.
  - apply elem_of_dom. eauto.
  - intros l Hl. apply list_elem_of_lookup in Hl as [x Hx].
    pose proof (records_lookup _ _ _ x Hrec) as H. rewrite Hx in H.
    destruct H as (seg & _ & H). apply elem_of_dom. eauto.
Qed.

Lemma loop_inv_fresh self track segs ls σ :
  inputs_at self track segs ls (heap σ) →
  loop_inv self (fresh (dom (heap σ))) track segs ls track
    (upd (fresh (dom (heap σ))) track [] σ).
Proof.
  intros Hin. destruct (inputs_in_dom _ _ _ _ _ Hin) as (Hr & Hs & Hl).
  pose proof (is_fresh (dom (heap σ))) as Hfresh.
  assert (fresh (dom (heap σ)) ≠ residue_numbers self) by congruence.
  assert (fresh (dom (heap σ)) ≠ ss_segment_list self) by congruence.
  assert (fresh (dom (heap σ)) ∉ ls) by (intros ?; by apply Hfresh, Hl).
  split; try done.
  - simpl. by apply inputs_at_insert.
  - simpl. apply lookup_insert_eq.
Qed.

Lemma deepcopy_run l xs σ :
  heap σ !! l = Some (OList xs) →
  deepcopy l σ = (upd (fresh (dom (heap σ))) xs [] σ, Ok (fresh (dom (heap σ)))).
Proof.
  intros H. unfold deepcopy, mbind, M_bind, read_list, alloc_list.
  rewrite H. unfold upd, set_heap. by rewrite app_nil_r.
Qed.

Lemma layout_run self zs segs ls σ :
  inputs_at self (VInt <$> zs) segs ls (heap σ) →
  Forall typed_segment segs →
  let V := layout_view (ylim_top σ) zs segs in
  find_ss_segments_and_generate_overlay self σ
  = (upd (fresh (dom (heap σ))) V.1.1 V.1.2 σ, V.2).
Proof.
  intros Hin Hty. unfold find_ss_segments_and_generate_overlay.
  rewrite (bind_ok _ _ _ _ _ (deepcopy_run _ _ _ (track_at _ _ _ _ _ Hin))).
  set (c := fresh (dom (heap σ))).
  pose proof (loop_inv_fresh _ _ _ _ _ Hin) as Hinv. fold c in Hinv.
  pose proof (cover_segments_run _ _ _ _ _ _ _ Hinv Hty) as Hrun.
  simpl in Hrun. rewrite upd_upd in Hrun. simpl in Hrun.
  unfold layout_view.
  pose proof (cover_all_ints (ylim_top σ) zs segs (VInt <$> zs)) as Hints.
  rewrite ints_of_fmap in Hints. specialize (Hints eq_refl).
  pose proof (cover_all_sublist (ylim_top σ) zs segs (VInt <$> zs)) as Hsub.
  destruct (cover_all (ylim_top σ) zs segs (VInt <$> zs))
    as [[rem ps] [[]| |]] eqn:E; simpl in *.
  - rewrite (bind_ok _ _ _ _ _ Hrun).
    pose proof (loop_inv_upd _ _ _ _ _ _ rem ps _ Hinv) as Hinv'.
    rewrite upd_upd in Hinv'. simpl in Hinv'.
    destruct zs as [|z zs].
    + apply sublist_nil_r in Hsub. subst rem.
      rewrite draw_connectors_empty.
      * by rewrite app_nil_r.
      * apply (inv_worklist _ _ _ _ _ _ _ Hinv').
    + rewrite (draw_connectors_run self c (ints_of rem) z (VInt <$> zs)).
      * by rewrite emit_upd.
      * rewrite <- Hints. apply (inv_worklist _ _ _ _ _ _ _ Hinv').
      * apply (track_at _ _ _ _ _ (inv_inputs _ _ _ _ _ _ _ Hinv')).
  - by rewrite (bind_raise _ _ _ _ _ Hrun).
  - by rewrite (bind_undefined _ _ _ _ Hrun).
Qed.

(** The state built by [caller_state] holds the inputs. *)
Lemma caller_state_inputs y track segs :
  inputs_at caller_self track segs (caller_refs segs)
    (heap (caller_state y track segs)).
Proof.
  unfold caller_state, caller_refs. simpl.
  assert (∀ k (ss : list (list val)) (h0 : gmap loc obj),
    (∀ i : nat, h0 !! Pos.of_nat (3 + k + i) = None) →
    let ls := (λ i : nat, Pos.of_nat (3 + i)) <$> seq k (length ss) in
    let h1 := foldr (λ '(l, seg) h, <[l := OList seg]> h) h0 (zip ls ss) in
    Forall2 (λ l seg, h1 !! l = Some (OList seg)) ls ss
    ∧ ∀ p, (p < Pos.of_nat (3 + k))%positive → h1 !! p = h0 !! p) as Haux.
  { intros k ss. revert k. induction ss as [|seg ss IH]; intros k h0 Hfree; simpl.
    - split; [constructor|done].
    - destruct (IH (S k) h0) as [IH1 IH2].
      { intros i. replace (3 + S k + i)%nat with (3 + k + S i)%nat by lia. apply Hfree. }
      split.
      + constructor; [apply lookup_insert_eq|].
        eapply Forall2_impl; [apply IH1|]. intros l s Hl. simpl in Hl.
        destruct (decide (Pos.of_nat (S (S (S k))) = l)) as [<-|Hne].
        * rewrite IH2 in Hl by lia.
          specialize (Hfree 0%nat). rewrite Nat.add_0_r in Hfree. simpl in Hfree.
          congruence.
        * by rewrite lookup_insert_ne.
      + intros p Hp. rewrite lookup_insert_ne by lia. apply IH2. lia. }
  destruct (Haux 0%nat segs {[1%positive := OList track]}) as [H1 H2].
  { intros i. apply lookup_singleton_ne. lia. }
  simpl in H1, H2. split; simpl.
  - rewrite lookup_insert_ne by done. rewrite H2 by lia. apply lookup_singleton_eq.
  - apply lookup_insert_eq.
  - eapply Forall2_impl; [apply H1|]. intros l s Hl. simpl in Hl.
    destruct (decide (2%positive = l)) as [<-|Hne].
    + rewrite H2 in Hl by lia. by rewrite lookup_singleton_ne in Hl.
    + by rewrite lookup_insert_ne.
Qed.

(** ** The values of [np.arange] *)





Lemma np_arange_length start stop :
  length (np_arange start stop 0.75)
  = Z.to_nat (Qceiling ((inject_Z stop - inject_Z start) / 0.75)).
Proof. unfold np_arange. by rewrite length_fmap, length_seq. Qed.






(** ** The first loop as removals and patches *)

Lemma remove_each_app ys1 ys2 : ∀ rem,
  remove_each (ys1 ++ ys2) rem
  = match remove_each ys1 rem with
    | (rem', Ok _) => remove_each ys2 rem'
    | r => r
    end.
Proof.
  induction ys1 as [|y ys1 IH]; intros rem; simpl; [done|].
  destruct (list_remove (VInt y) rem) as [rem'| |]; simpl; try done.
Qed.

Lemma cover_one_spec y zs seg rem :
  typed_segment seg →
  zs ≠ [] ∨ (cover_one y zs seg rem).2 = Ok () →
  cover_one y zs seg rem
  = ((remove_each (covered seg) rem).1,
     segment_patches y (default 0 (last zs)) seg,
     (remove_each (covered seg) rem).2).
Proof.
  intros (cls & s & e & H0 & H2 & H4) Hz.
  unfold cover_one, covered, segment_patches in *. rewrite H0, H2, H4 in *.
  destruct (decide (cls = "Strand")) as [->|Hns].
  - rewrite decide_True by (by left). done.
  - destruct (decide (cls = "AlphaHelix")) as [->|Hnh].
    + rewrite decide_True by (by right).
      destruct (last zs) as [n|] eqn:Hl; [done|].
      apply last_None in Hl. destruct Hz as [Hz|Hz]; [done|]. done.
    + rewrite decide_False; [done|]. by intros [?|?].
Qed.

Lemma cover_all_spec y zs segs : ∀ rem,
  Forall typed_segment segs →
  zs ≠ [] ∨ (cover_all y zs segs rem).2 = Ok () →
  (cover_all y zs segs rem).1.1
  = (remove_each (flat_map covered segs) rem).1
  ∧ (cover_all y zs segs rem).2
    = (remove_each (flat_map covered segs) rem).2
  ∧ ((cover_all y zs segs rem).2 = Ok () →
     (cover_all y zs segs rem).1.2
     = flat_map (segment_patches y (default 0 (last zs))) segs).
Proof.
  induction segs as [|seg segs IH]; intros rem Hty Hz; simpl; [done|].
  apply Forall_cons in Hty as [Hseg Hty].
  rewrite remove_each_app.
  assert (zs ≠ [] ∨ (cover_one y zs seg rem).2 = Ok ()) as Hz1.
  { destruct Hz as [Hz|Hz]; [by left|right]. simpl in Hz.
    by destruct (cover_one y zs seg rem) as [[rem' ps] [[]| |]]. }
  pose proof (cover_one_spec y zs seg rem Hseg Hz1) as E1.
  simpl in Hz.
  destruct (cover_one y zs seg rem) as [[rem1 ps1] o1].
  injection E1 as -> -> ->.
  destruct (remove_each (covered seg) rem) as [rem' [[]| |]]; simpl in *;
    try done.
  destruct (IH rem' Hty) as (IH1 & IH2 & IH3).
  { destruct Hz as [Hz|Hz]; [by left|by right]. }
  split_and!; [done|done|]. intros Hok. by rewrite IH3.
Qed.

Lemma layout_ok_spec self zs segs ls σ :
  inputs_at self (VInt <$> zs) segs ls (heap σ) →
  Forall typed_segment segs →
  let out := find_ss_segments_and_generate_overlay self σ in
  out.2 = Ok () →
  ∃ rem : list Z,
    remove_each (flat_map covered segs) (VInt <$> zs) = (VInt <$> rem, Ok ())
    ∧ heap out.1 = <[fresh (dom (heap σ)) := OList (VInt <$> rem)]> (heap σ)
    ∧ added σ out.1
      = flat_map (segment_patches (ylim_top σ) (default 0 (last zs))) segs
        ++ connector_pass (ylim_top σ) (default 0 (head zs)) rem.
Proof.
  intros Hin Hty out Hok. subst out.
  rewrite (layout_run _ _ _ _ _ Hin Hty) in *. simpl in *.
  unfold layout_view in *.
  pose proof (cover_all_ints (ylim_top σ) zs segs (VInt <$> zs)) as Hints.
  rewrite ints_of_fmap in Hints. specialize (Hints eq_refl).
  pose proof (cover_all_spec (ylim_top σ) zs segs (VInt <$> zs) Hty) as Hspec.
  destruct (cover_all (ylim_top σ) zs segs (VInt <$> zs))
    as [[rem ps] [[]| |]] eqn:E; simpl in *; try done.
  destruct Hspec as (H1 & H2 & H3); [by right|].
  exists (ints_of rem). rewrite <- Hints. split_and!.
  - destruct (remove_each _ _) as [r o]. simpl in *. by subst.
  - done.
  - rewrite added_upd. by rewrite H3.
Qed.

(** ** Removals as permutations, and failing removals *)

Lemma list_remove_int_perm y : ∀ zs rem',
  list_remove (VInt y) (VInt <$> zs) = Ok rem' →
  ∃ zs', rem' = VInt <$> zs' ∧ zs ≡ₚ y :: zs'.
Proof.
  induction zs as [|z zs IH]; intros rem' H; simpl in H; [done|].
  change (list_fmap Z val VInt zs) with (VInt <$> zs) in H.
  unfold py_eq in H. destruct (decide (VInt z = VInt y)) as [E|E].
  - rewrite bool_decide_eq_true_2 in H by done.
    injection H as <-. injection E as ->. by exists zs.
  - rewrite bool_decide_eq_false_2 in H by done.
    destruct (list_remove (VInt y) (VInt <$> zs)) as [r| |]; simpl in H; try done.
    injection H as <-. destruct (IH r eq_refl) as (zs' & -> & Hp).
    exists (z :: zs'). split; [done|]. rewrite Hp. apply Permutation_swap.
Qed.

Lemma remove_each_int_perm ys : ∀ zs rem,
  remove_each ys (VInt <$> zs) = (VInt <$> rem, Ok ()) →
  zs ≡ₚ ys ++ rem.
Proof.
  induction ys as [|y ys IH]; intros zs rem H; simpl in H.
  - injection H as H. apply (f_equal ints_of) in H.
    rewrite !ints_of_fmap in H. by subst.
  - destruct (list_remove (VInt y) (VInt <$> zs)) as [r| |] eqn:E; try done.
    apply list_remove_int_perm in E as (zs' & -> & Hp).
    apply IH in H. rewrite Hp. simpl. by rewrite H.
Qed.

Lemma list_remove_found v rem rem' :
  list_remove v rem = Ok rem' → v ∈ rem.
Proof.
  revert rem'. induction rem as [|x rem IH]; intros rem' H; simpl in H; [done|].
  unfold py_eq in H. destruct (decide (x = v)) as [->|Hne].
  - apply list_elem_of_here.
  - rewrite bool_decide_eq_false_2 in H by done.
    destruct (list_remove v rem) as [r| |]; simpl in H; try done.
    apply list_elem_of_further. by apply (IH r).
Qed.

Lemma list_remove_outcome v rem :
  (∃ rem', list_remove v rem = Ok rem') ∨ list_remove v rem = Raise ValueError.
Proof.
  induction rem as [|x rem IH]; simpl; [by right|].
  destruct (py_eq x v); [left; eauto|].
  destruct IH as [[r ->]| ->]; simpl; [left; eauto|by right].
Qed.

Lemma remove_each_missing ys : ∀ rem y,
  y ∈ ys → VInt y ∉ rem → (remove_each ys rem).2 = Raise ValueError.
Proof.
  induction ys as [|y0 ys IH]; intros rem y Hy Hrem; simpl.
  - by apply elem_of_nil in Hy.
  - destruct (list_remove_outcome (VInt y0) rem) as [[rem' E]|E]; rewrite E;
      [|done].
    apply elem_of_cons in Hy as [->|Hy].
    + by apply list_remove_found in E.
    + apply (IH rem' y Hy). intros Hin. apply Hrem.
      apply list_remove_sublist in E. by eapply elem_of_sublist.
Qed.

Lemma covered_recognized seg cls s e :
  segment_of seg cls s e → recognized cls → covered seg = py_range s e.
Proof.
  intros (H0 & H2 & H4) Hrec. unfold covered. rewrite H0, H2, H4.
  by rewrite decide_True.
Qed.

(** ** Computations seen from the loops *)

Lemma tracks_pure {A} self rw (m : M A) (o : env → list val → outcome A) :
  (∀ track segs ls rem σ,
     loop_inv self rw track segs ls rem σ →
     m σ = (σ, o (Env (ylim_top σ) track segs) rem)) →
  tracks self rw m (view_pure o).
Proof.
  intros H track segs ls rem σ Hinv. simpl.
  rewrite (H _ _ _ _ _ Hinv). f_equal. symmetry.
  apply upd_id, (inv_worklist _ _ _ _ _ _ _ Hinv).
Qed.

Lemma tracks_ret {A} self rw (a : A) :
  tracks self rw (mret a) (view_pure (λ _ _, Ok a)).
Proof. by apply tracks_pure. Qed.

Lemma tracks_lift {A} self rw (o : outcome A) :
  tracks self rw (lift o) (view_pure (λ _ _, o)).
Proof. by apply tracks_pure. Qed.

Lemma tracks_ylim self rw :
  tracks self rw plt_ylim_top (view_pure (λ ρ _, Ok (env_ylim ρ))).
Proof. by apply tracks_pure. Qed.

Lemma tracks_read_track self rw :
  tracks self rw (read_list (residue_numbers self))
    (view_pure (λ ρ _, Ok (env_track ρ))).
Proof. apply tracks_pure. intros. by eapply read_track_inv. Qed.

Lemma tracks_read_worklist self rw :
  tracks self rw (read_list rw) (view_pure (λ _ rem, Ok rem)).
Proof. apply tracks_pure. intros. by eapply read_worklist_inv. Qed.

Lemma tracks_segment_item self rw x k :
  tracks self rw (segment_item self x k)
    (view_pure (λ ρ _, seg ← getitem (env_segs ρ) x; getitem seg k)).
Proof. apply tracks_pure. intros. by eapply segment_item_inv. Qed.

Lemma tracks_write self rw xs :
  tracks self rw (write_list rw xs) (λ _ _, (xs, [], Ok ())).
Proof.
  intros track segs ls rem σ Hinv. simpl.
  unfold write_list, upd, set_heap. by rewrite app_nil_r.
Qed.

Lemma tracks_add_patch self rw p :
  tracks self rw (add_patch p) (λ _ rem, (rem, [p], Ok ())).
Proof.
  intros track segs ls rem σ Hinv. simpl. unfold add_patch. f_equal.
  apply emit_as_upd, (inv_worklist _ _ _ _ _ _ _ Hinv).
Qed.

Lemma tracks_bind {A B} self rw (m : M A) (k : A → M B) f g :
  tracks self rw m f → (∀ a, tracks self rw (k a) (g a)) →
  tracks self rw (m ≫= k) (view_bind f g).
Proof.
  intros Hm Hk track segs ls rem σ Hinv. simpl.
  specialize (Hm _ _ _ _ _ Hinv). simpl in Hm. unfold view_bind.
  destruct (f (Env (ylim_top σ) track segs) rem) as [[rem' ps] [a| |]];
    simpl in *.
  - rewrite (bind_ok _ _ _ _ _ Hm).
    pose proof (loop_inv_upd _ _ _ _ _ _ rem' ps _ Hinv) as Hinv'.
    rewrite (Hk a _ _ _ _ _ Hinv'). simpl. by rewrite upd_upd.
  - by rewrite (bind_raise _ _ _ _ _ Hm).
  - by rewrite (bind_undefined _ _ _ _ Hm).
Qed.

Lemma tracks_if {A} self rw (b : bool) (m1 m2 : M A) f1 f2 :
  tracks self rw m1 f1 → tracks self rw m2 f2 →
  tracks self rw (if b then m1 else m2) (if b then f1 else f2).
Proof. by destruct b. Qed.

Lemma tracks_for_each {A} self rw (xs : list A) body g :
  (∀ x, tracks self rw (body x) (g x)) →
  tracks self rw (for_each xs body) (view_for_each xs g).
Proof.
  intros H. induction xs as [|x xs IH]; simpl.
  - apply tracks_ret.
  - apply tracks_bind; [apply H|]. by intros _.
Qed.

Lemma tracks_for_acc {A S} self rw (xs : list A) body g : ∀ s : S,
  (∀ x s, tracks self rw (body x s) (g x s)) →
  tracks self rw (for_acc xs s body) (view_for_acc xs s g).
Proof.
  intros s H. revert s. induction xs as [|x xs IH]; intros s; simpl.
  - apply tracks_ret.
  - apply tracks_bind; [apply H|]. intros s'. apply IH.
Qed.

Lemma add_rectangle_patch_tracks :
  ∃ f : val → Z → view unit, ∀ self rw start len,
    tracks self rw (add_rectangle_patch start len) (f start len).
Proof.
  eexists. intros self rw start len. unfold add_rectangle_patch.
  eapply tracks_bind; [apply tracks_ylim|]. intros y_top.
  eapply tracks_bind; [apply tracks_lift|]. intros x.
  apply tracks_add_patch.
Qed.

Lemma tracks_pair {A B C} self rw (s : A * B) (m : A → B → M C) f :
  (∀ a b, tracks self rw (m a b) (f a b)) →
  tracks self rw (let '(a, b) := s in m a b) (let '(a, b) := s in f a b).
Proof. intros H. destruct s. apply H. Qed.

Lemma add_strand_patch_tracks :
  ∃ f : val → val → view unit, ∀ self rw a b,
    tracks self rw (add_strand_patch a b) (f a b).
Proof.
  destruct add_rectangle_patch_tracks as [f_rect Hrect].
  eexists. intros self rw a b. unfold add_strand_patch.
  eapply tracks_bind; [apply tracks_ylim|]. intros y_top.
  eapply tracks_bind; [apply tracks_lift|]. intros x.
  eapply tracks_bind; [apply tracks_lift|]. intros dx.
  eapply tracks_bind; [apply tracks_add_patch|]. intros u.
  apply Hrect.
Qed.

Lemma add_helix_patch_tracks :
  ∃ f : val → val → view unit, ∀ self rw a b,
    tracks self rw (add_helix_patch self a b) (f a b).
Proof.
  destruct add_rectangle_patch_tracks as [f_rect Hrect].
  eexists. intros self rw a b. unfold add_helix_patch.
  eapply tracks_bind; [apply tracks_ylim|]. intros y_top.
  eapply tracks_bind; [apply tracks_lift|]. intros x.
  eapply tracks_bind; [apply tracks_lift|]. intros x'.
  eapply tracks_bind.
  { eapply tracks_for_acc. intros t s.
    eapply (tracks_pair _ _ s). intros st en.
    eapply tracks_bind; [apply tracks_add_patch|]. intros u.
    apply tracks_ret. }
  intros u.
  eapply tracks_bind; [apply tracks_read_track|]. intros rn.
  eapply tracks_bind; [apply tracks_lift|]. intros last_res.
  eapply tracks_bind; [apply tracks_lift|]. intros last_num.
  eapply tracks_bind; [apply tracks_lift|]. intros c.
  eapply tracks_if; [apply Hrect|apply tracks_ret].
Qed.

Lemma remove_item_tracks :
  ∃ f : val → view unit, ∀ self rw v,
    tracks self rw (remove_item rw v) (f v).
Proof.
  eexists. intros self rw v. unfold remove_item.
  eapply tracks_bind; [apply tracks_read_worklist|]. intros xs.
  eapply tracks_bind; [apply tracks_lift|]. intros xs'.
  apply tracks_write.
Qed.

Lemma cover_segment_tracks :
  ∃ f : nat → view unit, ∀ self rw x,
    tracks self rw (cover_segment self rw x) (f x).
Proof.
  destruct add_strand_patch_tracks as [f_strand Hstrand].
  destruct add_helix_patch_tracks as [f_helix Hhelix].
  destruct remove_item_tracks as [f_rm Hrm].
  eexists. intros self rw x. unfold cover_segment.
  eapply tracks_bind; [apply tracks_segment_item|]. intros cls.
  eapply tracks_if.
  - eapply tracks_bind; [apply tracks_segment_item|]. intros a.
    eapply tracks_bind; [apply tracks_segment_item|]. intros b.
    eapply tracks_bind; [apply Hstrand|]. intros u.
    eapply tracks_bind; [apply tracks_segment_item|]. intros a'.
    eapply tracks_bind; [apply tracks_segment_item|]. intros b'.
    eapply tracks_bind; [apply tracks_lift|]. intros ys.
    eapply tracks_for_each. intros y. apply Hrm.
  - eapply tracks_bind; [apply tracks_segment_item|]. intros cls'.
    eapply tracks_if; [|apply tracks_ret].
    eapply tracks_bind; [apply tracks_segment_item|]. intros a.
    eapply tracks_bind; [apply tracks_segment_item|]. intros b.
    eapply tracks_bind; [apply Hhelix|]. intros u.
    eapply tracks_bind; [apply tracks_segment_item|]. intros a'.
    eapply tracks_bind; [apply tracks_segment_item|]. intros b'.
    eapply tracks_bind; [apply tracks_lift|]. intros ys.
    eapply tracks_for_each. intros y. apply Hrm.
Qed.

Lemma draw_connector_tracks :
  ∃ f : nat → view unit, ∀ self rw x,
    tracks self rw (draw_connector self rw x) (f x).
Proof.
  destruct add_rectangle_patch_tracks as [f_rect Hrect].
  eexists. intros self rw x. unfold draw_connector.
  eapply tracks_bind; [apply tracks_read_worklist|]. intros rem.
  eapply tracks_bind; [apply tracks_lift|]. intros v.
  eapply tracks_bind; [apply tracks_lift|]. intros i.
  eapply tracks_bind; [apply tracks_read_track|]. intros rn.
  eapply tracks_bind; [apply tracks_lift|]. intros first.
  eapply tracks_if.
  - eapply tracks_bind; [apply tracks_read_worklist|]. intros rem'.
    eapply tracks_bind; [apply tracks_lift|]. intros v'.
    eapply tracks_bind; [apply tracks_lift|]. intros i'.
    apply Hrect.
  - eapply tracks_bind; [apply tracks_read_worklist|]. intros rem'.
    eapply tracks_bind; [apply tracks_lift|]. intros v'.
    eapply tracks_bind; [apply tracks_lift|]. intros i'.
    apply Hrect.
Qed.

Lemma cover_segments_tracks :
  ∃ f : view unit, ∀ self rw, tracks self rw (cover_segments self rw) f.
Proof.
  destruct cover_segment_tracks as [f_seg Hseg].
  exists (λ ρ, view_for_each (seq 0 (length (env_segs ρ))) f_seg ρ).
  intros self rw track segs ls rem σ Hinv. unfold cover_segments.
  rewrite (bind_ok _ _ _ _ _ (read_refs_inv _ _ _ _ _ _ _ Hinv)).
  pose proof (records_at _ _ _ _ _ (inv_inputs _ _ _ _ _ _ _ Hinv)) as Hrec.
  rewrite (Forall2_length _ _ _ Hrec).
  simpl.
  apply (tracks_for_each self rw (seq 0 (length segs)) _ f_seg
           (Hseg self rw) _ _ _ _ _ Hinv).
Qed.

Lemma draw_connectors_tracks :
  ∃ f : view unit, ∀ self rw, tracks self rw (draw_connectors self rw) f.
Proof.
  destruct draw_connector_tracks as [f_con Hcon].
  eexists. intros self rw. unfold draw_connectors.
  eapply tracks_bind; [apply tracks_read_worklist|]. intros rem.
  eapply tracks_for_each. apply Hcon.
Qed.

(** The method is a function of the contents of its inputs and of the top
    of the axis: the worklist it leaves, the patches it adds and its
    result do not depend on anything else in the state. *)
Lemma layout_function :
  ∃ G : Q → list val → list (list val) → list val * list patch * outcome unit,
    ∀ self track segs ls σ,
      inputs_at self track segs ls (heap σ) →
      find_ss_segments_and_generate_overlay self σ
      = (upd (fresh (dom (heap σ))) (G (ylim_top σ) track segs).1.1
           (G (ylim_top σ) track segs).1.2 σ,
         (G (ylim_top σ) track segs).2).
Proof.
  destruct cover_segments_tracks as [f_cov Hcov].
  destruct draw_connectors_tracks as [f_con Hcon].
  exists (λ y track segs,
            view_bind f_cov (λ _, f_con) (Env y track segs) track).
  intros self track segs ls σ Hin.
  unfold find_ss_segments_and_generate_overlay.
  rewrite (bind_ok _ _ _ _ _ (deepcopy_run _ _ _ (track_at _ _ _ _ _ Hin))).
  pose proof (loop_inv_fresh _ _ _ _ _ Hin) as Hinv.
  pose proof (tracks_bind self (fresh (dom (heap σ))) _ _ _ _
                (Hcov self _) (λ _ : unit, Hcon self _)
                _ _ _ _ _ Hinv) as H.
  simpl in H. rewrite H. by rewrite upd_upd.
Qed.

Lemma inputs_at_upd_fresh self track segs ls rem ps σ :
  inputs_at self track segs ls (heap σ) →
  inputs_at self track segs ls
    (heap (upd (fresh (dom (heap σ))) rem ps σ)).
Proof.
  intros Hin.
  apply (inv_inputs self (fresh (dom (heap σ))) _ _ _ rem).
  pose proof (loop_inv_fresh _ _ _ _ _ Hin) as Hinv.
  pose proof (loop_inv_upd _ _ _ _ _ _ rem ps _ Hinv) as Hinv'.
  by rewrite upd_upd in Hinv'.
Qed.

(** ** Writes are confined to the copy *)

Lemma only_writes_same {A} rw (m : M A) :
  (∀ σ, heap (m σ).1 = heap σ) → only_writes rw m.
Proof. intros H σ l _. by rewrite H. Qed.

Lemma only_writes_bind {A B} rw (m : M A) (k : A → M B) :
  only_writes rw m → (∀ a, only_writes rw (k a)) →
  only_writes rw (m ≫= k).
Proof.
  intros Hm Hk σ l Hl. specialize (Hm σ l Hl).
  unfold mbind, M_bind. destruct (m σ) as [σ' [a| |]]; simpl in *; try done.
  by rewrite (Hk a σ' l Hl).
Qed.

Lemma only_writes_for_each {A} rw (xs : list A) body :
  (∀ x, only_writes rw (body x)) → only_writes rw (for_each xs body).
Proof.
  intros H. induction xs as [|x xs IH]; simpl.
  - by apply only_writes_same.
  - apply only_writes_bind; [apply H|]. by intros _.
Qed.

Lemma only_writes_for_acc {A S} rw (xs : list A) body : ∀ s : S,
  (∀ x s, only_writes rw (body x s)) → only_writes rw (for_acc xs s body).
Proof.
  intros s H. revert s. induction xs as [|x xs IH]; intros s; simpl.
  - by apply only_writes_same.
  - apply only_writes_bind; [apply H|]. intros s'. apply IH.
Qed.

Lemma only_writes_lift {A} rw (o : outcome A) : only_writes rw (lift o).
Proof. by apply only_writes_same. Qed.

Lemma only_writes_ret {A} rw (a : A) : only_writes rw (mret a).
Proof. by apply only_writes_same. Qed.

Lemma only_writes_read_list rw l : only_writes rw (read_list l).
Proof.
  apply only_writes_same. intros σ. unfold read_list.
  by repeat case_match.
Qed.

Lemma only_writes_read_nested rw l : only_writes rw (read_nested l).
Proof.
  apply only_writes_same. intros σ. unfold read_nested.
  by repeat case_match.
Qed.

Lemma only_writes_add_patch rw p : only_writes rw (add_patch p).
Proof. by apply only_writes_same. Qed.

Lemma only_writes_ylim rw : only_writes rw plt_ylim_top.
Proof. by apply only_writes_same. Qed.

Lemma only_writes_write rw xs : only_writes rw (write_list rw xs).
Proof. intros σ l Hl. simpl. by rewrite lookup_insert_ne. Qed.

Create HintDb frame discriminated.
#[local] Hint Resolve only_writes_lift only_writes_ret only_writes_read_list
  only_writes_read_nested only_writes_add_patch only_writes_ylim
  only_writes_write : frame.

Ltac frame_step :=
  first [ apply only_writes_bind; [|intros ?]
        | apply only_writes_for_each; intros ?
        | apply only_writes_for_acc; intros ? ?
        | solve [auto with frame]
        | match goal with |- only_writes _ (if ?b then _ else _) => destruct b end
        | match goal with |- only_writes _ (let '(_, _) := ?s in _) => destruct s end ].

Lemma only_writes_add_rectangle_patch rw start len :
  only_writes rw (add_rectangle_patch start len).
Proof. unfold add_rectangle_patch. repeat frame_step. Qed.

Lemma only_writes_add_strand_patch rw a b :
  only_writes rw (add_strand_patch a b).
Proof.
  unfold add_strand_patch. repeat frame_step;
    try apply only_writes_add_rectangle_patch.
Qed.

Lemma only_writes_add_helix_patch rw self a b :
  only_writes rw (add_helix_patch self a b).
Proof.
  unfold add_helix_patch. repeat frame_step;
    try apply only_writes_add_rectangle_patch.
Qed.

Lemma only_writes_segment_item rw self x k :
  only_writes rw (segment_item self x k).
Proof. unfold segment_item. repeat frame_step. Qed.

Lemma only_writes_remove_item rw v : only_writes rw (remove_item rw v).
Proof. unfold remove_item. repeat frame_step. Qed.

#[local] Hint Resolve only_writes_add_rectangle_patch
  only_writes_add_strand_patch only_writes_add_helix_patch
  only_writes_segment_item only_writes_remove_item : frame.

Lemma only_writes_cover_segment rw self x :
  only_writes rw (cover_segment self rw x).
Proof. unfold cover_segment. repeat frame_step. Qed.

Lemma only_writes_draw_connector rw self x :
  only_writes rw (draw_connector self rw x).
Proof. unfold draw_connector. repeat frame_step. Qed.

Lemma only_writes_loops rw self :
  only_writes rw (cover_segments self rw;; draw_connectors self rw).
Proof.
  unfold cover_segments, draw_connectors. repeat frame_step;
    first [apply only_writes_cover_segment|apply only_writes_draw_connector].
Qed.

Lemma layout_preserves_objects self σ l o :
  heap σ !! l = Some o →
  heap (find_ss_segments_and_generate_overlay self σ).1 !! l = Some o.
Proof.
  intros Hl. unfold find_ss_segments_and_generate_overlay.
  unfold mbind at 1, M_bind at 1, deepcopy.
  unfold mbind at 1, M_bind at 1, read_list.
  destruct (heap σ !! residue_numbers self) as [[xs|?]|] eqn:E; simpl; try done.
  set (c := fresh (dom (heap σ))).
  assert (l ≠ c) as Hne.
  { intros ->. apply (is_fresh (dom (heap σ))). apply elem_of_dom. eauto. }
  pose proof (only_writes_loops c self
    (set_heap (<[c:=OList xs]> (heap σ)) σ) l Hne) as H.
  simpl in H. rewrite lookup_insert_ne in H by done.
  by rewrite H.
Qed.

(** ** The records of a stride file *)

Lemma is_LOC_line_spec line : is_LOC_line line = true ↔ str_take 3 line = "LOC".
Proof. unfold is_LOC_line. apply String.eqb_eq. Qed.

Lemma select_LOC_lines_filter stride_lines :
  select_LOC_lines stride_lines
  = filter (λ line, str_take 3 line = "LOC") stride_lines.
Proof.
  unfold select_LOC_lines.
  assert (∀ acc : list string,
    foldl (λ LOC_lines line,
             if is_LOC_line line then LOC_lines ++ [line] else LOC_lines)
          acc stride_lines
    = acc ++ filter (λ line, str_take 3 line = "LOC") stride_lines) as H.
  { induction stride_lines as [|l ls IH]; intros acc; simpl.
    - by rewrite app_nil_r.
    - rewrite IH. rewrite filter_cons.
      destruct (is_LOC_line l) eqn:E.
      + apply is_LOC_line_spec in E. rewrite decide_True by done.
        by rewrite <- app_assoc.
      + rewrite decide_False; [done|]. intros E'.
        apply is_LOC_line_spec in E'. congruence. }
  apply (H []).
Qed.

Lemma py_in_spec v xs : py_in v xs = true ↔ v ∈ xs.
Proof.
  unfold py_in. rewrite existsb_exists. split.
  - intros (x & Hx & E). unfold py_eq in E. apply bool_decide_eq_true in E.
    subst. by apply list_elem_of_In.
  - intros H. exists v. split; [by apply list_elem_of_In|].
    unfold py_eq. by apply bool_decide_eq_true.
Qed.

Lemma list_remove_filter v xs xs' :
  list_remove v xs = Ok xs' →
  filter (λ x, x ≠ v) xs' = filter (λ x, x ≠ v) xs.
Proof.
  revert xs'. induction xs as [|x xs IH]; intros xs' H; simpl in H; [done|].
  unfold py_eq in H. destruct (decide (x = v)) as [->|Hne].
  - rewrite bool_decide_eq_true_2 in H by done. injection H as <-.
    rewrite filter_cons. by rewrite decide_False by (by intros ?).
  - rewrite bool_decide_eq_false_2 in H by done.
    destruct (list_remove v xs) as [r| |] eqn:E; simpl in H; try done.
    injection H as <-. rewrite !filter_cons. rewrite !decide_True by done.
    f_equal. by apply IH.
Qed.

Lemma filter_absent (v : val) (xs : list val) :
  v ∉ xs → filter (λ x, x ≠ v) xs = xs.
Proof.
  induction xs as [|x xs IH]; intros H; [done|].
  apply not_elem_of_cons in H as [Hne Hxs].
  rewrite filter_cons. rewrite decide_True by congruence. by rewrite IH.
Qed.

Lemma list_remove_present v xs :
  v ∈ xs → ∃ xs', list_remove v xs = Ok xs'.
Proof.
  induction xs as [|x xs IH]; intros Hi; [by apply elem_of_nil in Hi|].
  simpl. unfold py_eq. destruct (decide (x = v)) as [->|Hne].
  - rewrite bool_decide_eq_true_2 by done. eauto.
  - rewrite bool_decide_eq_false_2 by done.
    apply elem_of_cons in Hi as [Hi|Hi]; [congruence|].
    destruct (IH Hi) as [r ->]. simpl. eauto.
Qed.

Lemma remove_empty_fields_filter fields :
  remove_empty_fields fields = filter (λ v, v ≠ VStr "") fields.
Proof.
  funelim (remove_empty_fields fields).
  - symmetry. apply filter_absent. intros Hin.
    apply (proj2 (py_in_spec _ _)) in Hin. congruence.
  - rewrite H. by apply list_remove_filter.
  - exfalso. pose proof (proj1 (py_in_spec _ _) e) as Hi.
    destruct (list_remove_present _ _ Hi) as [r E]. congruence.
  - exfalso. pose proof (proj1 (py_in_spec _ _) e) as Hi.
    destruct (list_remove_present _ _ Hi) as [r E]. congruence.
Qed.

Lemma str_split_words s :
  ∃ t ts,
    str_split " " s = t :: ts
    ∧ words is_blank s
      = (if decide (t = "") then [] else [t]) ++ filter (λ w, w ≠ "") ts
    ∧ (t = "" ↔ match s with
                | "" => True
                | String c _ => is_blank c = true
                end).
Proof.
  induction s as [|c s IH]; simpl.
  - exists "", []. by split_and!.
  - destruct IH as (t & ts & Hs & Hw & Ht).
    change (Ascii.eqb c " ") with (is_blank c).
    destruct (is_blank c) eqn:Ec.
    + exists "", (str_split " " s). split_and!; [done| |done].
      rewrite Hs, Hw, filter_cons. simpl.
      destruct (decide (t = "")) as [->|Hne].
      * by rewrite decide_False by (by intros ?).
      * by rewrite decide_True.
    + rewrite Hs. exists (String c t), ts. split_and!; [done| |done].
      rewrite decide_False by done. simpl.
      destruct s as [|d s']; simpl in *.
      * injection Hs as <- <-. done.
      * destruct (is_blank d) eqn:Ed.
        -- assert (t = "") as -> by (by apply Ht).
           rewrite Hw. by rewrite decide_True.
        -- assert (t ≠ "") as Hne by (intros E; apply Ht in E; congruence).
           rewrite Hw. by rewrite decide_False.
Qed.

Lemma fields_are_words s :
  remove_empty_fields (VStr <$> str_split " " s)
  = VStr <$> words is_blank s.
Proof.
  rewrite remove_empty_fields_filter.
  destruct (str_split_words s) as (t & ts & -> & -> & _).
  assert (∀ l : list string,
    filter (λ v, v ≠ VStr "") (VStr <$> l)
    = VStr <$> filter (λ w, w ≠ "") l) as H.
  { induction l as [|w l IH]; [done|]. rewrite fmap_cons, !filter_cons.
    destruct (decide (w = "")) as [->|Hne].
    - rewrite decide_False by (by intros ?).
      rewrite decide_False by (by intros ?). done.
    - rewrite decide_True by congruence. rewrite decide_True by done.
      by rewrite fmap_cons, IH. }
  rewrite (H (t :: ts)), filter_cons.
  destruct (decide (t = "")) as [->|Hne].
  - by rewrite decide_False by (by intros ?).
  - by rewrite decide_True.
Qed.

Lemma interpret_LOC_line_spec line :
  interpret_LOC_line line
  = record_of_tokens (words is_blank (strip_noise line)).
Proof.
  unfold interpret_LOC_line. fold (strip_noise line).
  rewrite fields_are_words.
  destruct (words is_blank (strip_noise line))
    as [|t0 [|t1 [|t2 rest]]]; simpl; try done.
  unfold py_int. simpl. destruct (int_of_string t2) as [z2|]; simpl; [|done].
  destruct rest as [|t3 [|t4 more]]; simpl; try done.
  by destruct (int_of_string t4) as [z4|].
Qed.

Lemma interpret_LOC_lines_spec LOC_lines :
  interpret_LOC_lines LOC_lines = all_ok (interpret_LOC_line <$> LOC_lines).
Proof. induction LOC_lines as [|l ls IH]; simpl; [done|]. by rewrite IH. Qed.

Lemma read_records_by stride_lines :
  read_secondary_structure_assignment stride_lines
  = records_by is_blank stride_lines.
Proof.
  unfold read_secondary_structure_assignment, records_by.
  rewrite interpret_LOC_lines_spec, select_LOC_lines_filter. f_equal.
  apply list_fmap_ext. intros i line _. apply interpret_LOC_line_spec.
Qed.

Lemma all_ok_app {A} (os1 os2 : list (outcome A)) rs1 rs2 :
  all_ok os1 = Ok rs1 → all_ok os2 = Ok rs2 →
  all_ok (os1 ++ os2) = Ok (rs1 ++ rs2).
Proof.
  revert rs1. induction os1 as [|o os1 IH]; intros rs1 H1 H2; simpl in *.
  - by injection H1 as <-.
  - destruct o as [a| |]; simpl in *; try done.
    destruct (all_ok os1) as [r| |]; simpl in *; try done.
    injection H1 as <-. by rewrite (IH r eq_refl H2).
Qed.

Lemma all_ok_Forall2 {A} (os : list (outcome A)) rs :
  all_ok os = Ok rs → Forall2 (λ o r, o = Ok r) os rs.
Proof.
  revert rs. induction os as [|o os IH]; intros rs H; simpl in *.
  - injection H as <-. constructor.
  - destruct o as [a| |]; simpl in *; try done.
    destruct (all_ok os) as [r| |]; simpl in *; try done.
    injection H as <-. constructor; [done|]. by apply IH.
Qed.

(** ** Hyphens *)

Lemma str_remove_from_occurs c old : ∀ s skip,
  occurs c (str_remove_from old skip s) → occurs c s.
Proof.
  induction s as [|d s IH]; intros skip H;
    cbn [str_remove_from occurs] in *; [done|].
  destruct skip as [|k].
  - destruct (String.prefix old (String d s)).
    + right. by eapply IH.
    + cbn [occurs] in H. destruct H as [H|H]; [by left|right]. by eapply IH.
  - right. by eapply IH.
Qed.

Lemma str_remove_occurs c old s : occurs c (str_remove old s) → occurs c s.
Proof. apply str_remove_from_occurs. Qed.

Lemma hyphen_prefix c s :
  String.prefix "-" (String c s) = false → c ≠ "-"%char.
Proof.
  simpl. intros H ->. simpl in H. destruct (ascii_dec "-" "-"); [|done].
  by destruct s.
Qed.

Lemma str_remove_hyphen_from : ∀ s skip,
  ¬ occurs "-" (str_remove_from "-" skip s).
Proof.
  induction s as [|d s IH]; intros skip H;
    cbn [str_remove_from occurs] in *; [done|].
  destruct skip as [|k]; [|by eapply IH].
  destruct (String.prefix "-" (String d s)) eqn:E; [by eapply IH|].
  apply hyphen_prefix in E. cbn [occurs] in H.
  destruct H as [H|H]; [done|]. by eapply IH.
Qed.

Lemma str_remove_hyphen s : ¬ occurs "-" (str_remove "-" s).
Proof. apply str_remove_hyphen_from. Qed.

Lemma str_remove_hyphen_free s :
  ¬ occurs "-" s → str_remove "-" s = s.
Proof.
  unfold str_remove. induction s as [|d s IH]; intros H; [done|].
  cbn [str_remove_from].
  assert (String.prefix "-" (String d s) = false) as ->.
  { cbn [String.prefix]. destruct (ascii_dec "-" d) as [<-|?]; [|done].
    exfalso. apply H. by left. }
  f_equal. apply IH. intros Ho. apply H. by right.
Qed.

Lemma strip_noise_hyphen line : ¬ occurs "-" (strip_noise line).
Proof.
  unfold strip_noise. intros H.
  do 4 apply str_remove_occurs in H. by apply str_remove_hyphen in H.
Qed.

Lemma strip_noise_idempotent_on_hyphens line :
  strip_noise (str_remove "-" line) = strip_noise line.
Proof.
  unfold strip_noise. do 4 f_equal.
  apply str_remove_hyphen_free, str_remove_hyphen.
Qed.

Lemma words_occurs c sep : ∀ s w,
  w ∈ words sep s → occurs c w → occurs c s.
Proof.
  induction s as [|d s IH]; intros w Hw Hc; simpl in Hw.
  - by apply elem_of_nil in Hw.
  - destruct (sep d).
    + right. by eapply IH.
    + destruct s as [|d' s'].
      * apply list_elem_of_singleton in Hw as ->. simpl in Hc.
        destruct Hc as [Hc|[]]. by left.
      * destruct (sep d') eqn:Ed.
        -- apply elem_of_cons in Hw as [->|Hw].
           ++ simpl in Hc. destruct Hc as [Hc|[]]. by left.
           ++ right. by eapply IH.
        -- destruct (words sep (String d' s')) as [|w0 ws] eqn:Ew.
           ++ apply list_elem_of_singleton in Hw as ->. simpl in Hc.
              destruct Hc as [Hc|[]]. by left.
           ++ apply elem_of_cons in Hw as [->|Hw].
              ** simpl in Hc. destruct Hc as [Hc|Hc]; [by left|right].
                 apply (IH w0); [apply list_elem_of_here|done].
              ** right. apply (IH w); [by apply list_elem_of_further|done].
Qed.

Lemma lstrip_occurs c s : occurs c (lstrip s) → occurs c s.
Proof.
  induction s as [|d s IH]; simpl; [done|].
  destruct (is_int_space d); [|done]. intros H. right. by apply IH.
Qed.

Lemma rstrip_occurs c s : occurs c (rstrip s) → occurs c s.
Proof.
  induction s as [|d s IH]; simpl; [done|].
  destruct (rstrip s) as [|e t] eqn:E.
  - destruct (is_int_space d); simpl; [done|]. intros [H|[]]. by left.
  - simpl. intros [H|H]; [by left|right]. by apply IH.
Qed.

Lemma digit_of_nonneg c d : digit_of c = Some d → (0 ≤ d)%Z.
Proof.
  unfold digit_of. destruct (_ && _) eqn:E; [|done].
  intros [= <-]. apply andb_true_iff in E as [E _].
  apply Nat.leb_le in E. lia.
Qed.

Lemma scan_digits_nonneg : ∀ s st acc z,
  (0 ≤ acc)%Z → scan_digits st acc s = Some z → (0 ≤ z)%Z.
Proof.
  induction s as [|c s IH]; intros st acc z Hacc H;
    cbn [scan_digits] in H.
  - destruct st; try done. by injection H as <-.
  - destruct (digit_of c) as [d|] eqn:Ed.
    + apply digit_of_nonneg in Ed. eapply IH; [|done]. lia.
    + destruct (Ascii.eqb c "_"); [|done].
      destruct st; try done. by eapply IH.
Qed.

Lemma int_of_digits_nonneg t z : int_of_digits t = Some z → (0 ≤ z)%Z.
Proof.
  unfold int_of_digits. destruct (_ <=? _)%Z; [|done].
  by apply scan_digits_nonneg.
Qed.

Lemma int_of_string_nonneg s z :
  ¬ occurs "-" s → int_of_string s = Some z → (0 ≤ z)%Z.
Proof.
  intros Hno. unfold int_of_string.
  assert (¬ occurs "-" (rstrip (lstrip s))) as Hu.
  { intros H. by apply Hno, lstrip_occurs, rstrip_occurs. }
  destruct (rstrip (lstrip s)) as [|c t].
  - apply int_of_digits_nonneg.
  - destruct c as [[] [] [] [] [] [] [] []];
      first [ apply int_of_digits_nonneg
            | exfalso; apply Hu; by left ].
Qed.

(** ** Patches are only added, at one height *)

Lemma draws_at_same {A} y (m : M A) :
  (∀ σ, (m σ).1 = σ) → draws_at y m.
Proof.
  intros H σ Hy. rewrite H. split; [done|]. exists []. by rewrite app_nil_r.
Qed.

Lemma draws_at_bind {A B} y (m : M A) (k : A → M B) :
  draws_at y m → (∀ a, draws_at y (k a)) → draws_at y (m ≫= k).
Proof.
  intros Hm Hk σ Hσ. destruct (Hm σ Hσ) as (Hy & ps & Hps & Hall).
  unfold mbind, M_bind. destruct (m σ) as [σ' [a| |]]; simpl in *;
    try (split; [done|]; by exists ps).
  destruct (Hk a σ' Hy) as (Hy' & qs & Hqs & Hall').
  split; [done|]. exists (ps ++ qs). split.
  - by rewrite Hqs, Hps, app_assoc.
  - by apply Forall_app.
Qed.

Lemma draws_at_ylim {A} y (k : Q → M A) :
  draws_at y (k y) → draws_at y (plt_ylim_top ≫= k).
Proof. intros H σ Hσ. unfold mbind, M_bind, plt_ylim_top. rewrite Hσ. by apply H. Qed.

Lemma draws_at_for_each {A} y (xs : list A) body :
  (∀ x, draws_at y (body x)) → draws_at y (for_each xs body).
Proof.
  intros H. induction xs as [|x xs IH]; simpl.
  - by apply draws_at_same.
  - apply draws_at_bind; [apply H|]. by intros _.
Qed.

Lemma draws_at_for_acc {A S} y (xs : list A) body : ∀ s : S,
  (∀ x s, draws_at y (body x s)) → draws_at y (for_acc xs s body).
Proof.
  intros s H. revert s. induction xs as [|x xs IH]; intros s; simpl.
  - by apply draws_at_same.
  - apply draws_at_bind; [apply H|]. intros s'. apply IH.
Qed.

Lemma draws_at_lift {A} y (o : outcome A) : draws_at y (lift o).
Proof. by apply draws_at_same. Qed.

Lemma draws_at_ret {A} y (a : A) : draws_at y (mret a).
Proof. by apply draws_at_same. Qed.

Lemma draws_at_read_list y l : draws_at y (read_list l).
Proof.
  apply draws_at_same. intros σ. unfold read_list. by repeat case_match.
Qed.

Lemma draws_at_read_nested y l : draws_at y (read_nested l).
Proof.
  apply draws_at_same. intros σ. unfold read_nested. by repeat case_match.
Qed.

Lemma draws_at_write y l xs : draws_at y (write_list l xs).
Proof.
  intros σ Hσ. split; [done|]. exists []. simpl. by rewrite app_nil_r.
Qed.

Lemma draws_at_alloc y xs : draws_at y (alloc_list xs).
Proof.
  intros σ Hσ. split; [done|]. exists []. simpl. by rewrite app_nil_r.
Qed.

Lemma draws_at_add_patch y p :
  patch_y p = (y + 0.08)%Q → draws_at y (add_patch p).
Proof.
  intros Hp σ Hσ. split; [done|]. exists [p]. split; [done|].
  by repeat constructor.
Qed.

Create HintDb axis discriminated.
#[local] Hint Resolve draws_at_lift draws_at_ret draws_at_read_list
  draws_at_read_nested draws_at_write draws_at_alloc : axis.

Ltac axis_step :=
  first [ apply draws_at_ylim
        | apply draws_at_bind; [|intros ?]
        | apply draws_at_for_each; intros ?
        | apply draws_at_for_acc; intros ? ?
        | solve [auto with axis]
        | solve [apply draws_at_add_patch; reflexivity]
        | match goal with |- draws_at _ (if ?b then _ else _) => destruct b end
        | match goal with |- draws_at _ (let '(_, _) := ?s in _) => destruct s end ].

Lemma draws_at_add_rectangle_patch y start len :
  draws_at y (add_rectangle_patch start len).
Proof. unfold add_rectangle_patch. repeat axis_step. Qed.

#[local] Hint Resolve draws_at_add_rectangle_patch : axis.

Lemma draws_at_add_strand_patch y a b : draws_at y (add_strand_patch a b).
Proof. unfold add_strand_patch. repeat axis_step. Qed.

Lemma draws_at_add_helix_patch y self a b :
  draws_at y (add_helix_patch self a b).
Proof. unfold add_helix_patch. repeat axis_step. Qed.

Lemma draws_at_segment_item y self x k : draws_at y (segment_item self x k).
Proof. unfold segment_item. repeat axis_step. Qed.

Lemma draws_at_remove_item y rw v : draws_at y (remove_item rw v).
Proof. unfold remove_item. repeat axis_step. Qed.

#[local] Hint Resolve draws_at_add_strand_patch draws_at_add_helix_patch
  draws_at_segment_item draws_at_remove_item : axis.

Lemma draws_at_cover_segment y self rw x :
  draws_at y (cover_segment self rw x).
Proof. unfold cover_segment. repeat axis_step. Qed.

Lemma draws_at_draw_connector y self rw x :
  draws_at y (draw_connector self rw x).
Proof. unfold draw_connector. repeat axis_step. Qed.

#[local] Hint Resolve draws_at_cover_segment draws_at_draw_connector : axis.

Lemma draws_at_layout y self :
  draws_at y (find_ss_segments_and_generate_overlay self).
Proof.
  unfold find_ss_segments_and_generate_overlay, deepcopy, cover_segments,
    draw_connectors.
  repeat axis_step.
Qed.

(** ** Loops in two parts *)

Lemma for_each_app {A} (xs ys : list A) body σ :
  for_each (xs ++ ys) body σ
  = match for_each xs body σ with
    | (σ', Ok _) => for_each ys body σ'
    | r => r
    end.
Proof.
  revert σ. induction xs as [|x xs IH]; intros σ; simpl; [done|].
  unfold mbind, M_bind.
  destruct (body x σ) as [σ' [[]| |]]; first [done|apply IH].
Qed.

Lemma cover_segments_mid self rw zs segs ls mid : ∀ pre post rem σ,
  segs = pre ++ mid ++ post →
  loop_inv self rw (VInt <$> zs) segs ls rem σ →
  Forall typed_segment mid →
  let R := cover_all (ylim_top σ) zs mid rem in
  for_each (seq (length pre) (length mid)) (cover_segment self rw) σ
  = (upd rw R.1.1 R.1.2 σ, R.2).
Proof.
  induction mid as [|seg mid IH]; intros pre post rem σ Hsegs Hinv Hty; simpl.
  - unfold mret, M_ret. f_equal. symmetry.
    apply upd_id, (inv_worklist _ _ _ _ _ _ _ Hinv).
  - apply Forall_cons in Hty as [Hseg Hty].
    assert (segs !! length pre = Some seg) as Hx.
    { rewrite Hsegs. simpl. by rewrite list_lookup_middle. }
    pose proof (cover_segment_typed _ _ _ _ _ _ _ _ _ Hinv Hx Hseg) as Hrun.
    simpl in Hrun.
    destruct (cover_one (ylim_top σ) zs seg rem) as [[rem' ps] [[]| |]] eqn:E;
      simpl in Hrun.
    + rewrite (bind_ok _ _ _ _ _ Hrun).
      specialize (IH (pre ++ [seg]) post rem' (upd rw rem' ps σ)).
      rewrite length_app in IH. simpl in IH. rewrite Nat.add_1_r in IH.
      rewrite IH; try done.
      * simpl. by rewrite upd_upd.
      * rewrite Hsegs. simpl. by rewrite <- app_assoc.
      * by apply (loop_inv_upd _ _ _ _ _ rem).
    + by rewrite (bind_raise _ _ _ _ _ Hrun).
    + by rewrite (bind_undefined _ _ _ _ Hrun).
Qed.

(** The call when the segments [pre] are covered without error and the
    body of the first loop raises [e] for the next segment. *)
Lemma layout_fails_at self zs pre seg post ls σ rem ps rem' ps' e :
  inputs_at self (VInt <$> zs) (pre ++ seg :: post) ls (heap σ) →
  Forall typed_segment pre →
  cover_all (ylim_top σ) zs pre (VInt <$> zs) = (rem, ps, Ok ()) →
  (∀ rw σ',
     loop_inv self rw (VInt <$> zs) (pre ++ seg :: post) ls rem σ' →
     ylim_top σ' = ylim_top σ →
     cover_segment self rw (length pre) σ' = (upd rw rem' ps' σ', Raise e)) →
  find_ss_segments_and_generate_overlay self σ
  = (upd (fresh (dom (heap σ))) rem' (ps ++ ps') σ, Raise e).
Proof.
  intros Hin Hty Hpre Hbody. unfold find_ss_segments_and_generate_overlay.
  rewrite (bind_ok _ _ _ _ _ (deepcopy_run _ _ _ (track_at _ _ _ _ _ Hin))).
  set (c := fresh (dom (heap σ))).
  pose proof (loop_inv_fresh _ _ _ _ _ Hin) as Hinv. fold c in Hinv.
  assert (cover_segments self c (upd c (VInt <$> zs) [] σ)
          = (upd c rem' (ps ++ ps') σ, Raise e)) as Hrun.
  { unfold cover_segments.
    rewrite (bind_ok _ _ _ _ _ (read_refs_inv _ _ _ _ _ _ _ Hinv)).
    pose proof (records_at _ _ _ _ _ (inv_inputs _ _ _ _ _ _ _ Hinv)) as Hrec.
    rewrite (Forall2_length _ _ _ Hrec), length_app, seq_app, for_each_app.
    pose proof (cover_segments_mid self c zs _ ls pre [] (seg :: post)
                  (VInt <$> zs) _ eq_refl Hinv Hty) as Hmid.
    cbn [length] in Hmid. rewrite Hmid.
    simpl. rewrite Hpre. simpl. rewrite upd_upd. simpl.
    pose proof (loop_inv_upd _ _ _ _ _ _ rem ps _ Hinv) as Hinv'.
    rewrite upd_upd in Hinv'. simpl in Hinv'.
    rewrite (bind_raise _ _ _ _ _ (Hbody c _ Hinv' eq_refl)).
    by rewrite upd_upd. }
  by rewrite (bind_raise _ _ _ _ _ Hrun).
Qed.

(** ** The second loop on any values *)

Lemma draw_connector_val_run self rw vs first rest x v z σ :
  heap σ !! rw = Some (OList vs) →
  heap σ !! residue_numbers self = Some (OList (first :: rest)) →
  vs !! x = Some v → py_int v = Ok z →
  draw_connector self rw x σ
  = (emit [if py_eq (VInt z) first then connector (ylim_top σ) (z + 1)
           else connector (ylim_top σ) z] σ, Ok ()).
Proof.
  intros Hw Ht Hx Hz.
  unfold draw_connector, mbind, M_bind, read_list, lift, getitem.
  rewrite Hw, Ht, Hx, Hz. simpl.
  destruct (py_eq (VInt z) first); rewrite Hw; simpl; by rewrite Hx, Hz.
Qed.

Lemma draw_connector_val_fails self rw vs x v e σ :
  heap σ !! rw = Some (OList vs) →
  vs !! x = Some v → py_int v = Raise e →
  draw_connector self rw x σ = (σ, Raise e).
Proof.
  intros Hw Hx Hz.
  unfold draw_connector, mbind, M_bind, read_list, lift, getitem.
  by rewrite Hw, Hx, Hz.
Qed.

Lemma draw_connectors_val_from self rw vs first rest suf : ∀ zs pre σ,
  vs = pre ++ suf →
  heap σ !! rw = Some (OList vs) →
  heap σ !! residue_numbers self = Some (OList (first :: rest)) →
  Forall2 (λ v z, py_int v = Ok z) suf zs →
  for_each (seq (length pre) (length suf)) (draw_connector self rw) σ
  = (emit (connector_pass_val (ylim_top σ) first zs) σ, Ok ()).
Proof.
  induction suf as [|v suf IH]; intros zs pre σ Hvs Hw Ht Hall.
  - apply Forall2_nil_inv_l in Hall as ->. simpl. by rewrite emit_nil.
  - apply Forall2_cons_inv_l in Hall as (z & zs' & Hz & Hall & ->).
    assert (vs !! length pre = Some v) as Hx.
    { rewrite Hvs. by rewrite list_lookup_middle. }
    cbn [length seq for_each].
    rewrite (bind_ok _ _ _ _ _
               (draw_connector_val_run _ _ _ _ _ _ _ _ _ Hw Ht Hx Hz)).
    specialize (IH zs' (pre ++ [v])). rewrite length_app in IH. simpl in IH.
    rewrite Nat.add_1_r in IH. rewrite IH; try done.
    + by rewrite emit_emit.
    + by rewrite <- app_assoc.
Qed.

(** ** Segments that are skipped or cannot be read *)

Lemma for_each_noop {A} (xs : list A) body σ :
  (∀ x, x ∈ xs → body x σ = (σ, Ok ())) →
  for_each xs body σ = (σ, Ok ()).
Proof.
  induction xs as [|x xs IH]; intros H; simpl; [done|].
  rewrite (bind_ok _ _ _ _ _ (H x (list_elem_of_here _ _))).
  apply IH. intros y Hy. apply H. by apply list_elem_of_further.
Qed.

Lemma cover_segment_unrecognized self rw track segs ls rem σ x seg :
  loop_inv self rw track segs ls rem σ →
  segs !! x = Some seg → unrecognized_segment seg →
  cover_segment self rw x σ = (σ, Ok ()).
Proof.
  intros Hinv Hx (cls & H0 & Hs & Hh). unfold cover_segment.
  rewrite (bind_ok _ _ _ _ _ (segment_item_ok _ _ _ _ _ _ _ _ _ _ _ Hinv Hx H0)).
  unfold py_eq. rewrite bool_decide_eq_false_2 by done.
  rewrite (bind_ok _ _ _ _ _ (segment_item_ok _ _ _ _ _ _ _ _ _ _ _ Hinv Hx H0)).
  by rewrite bool_decide_eq_false_2 by done.
Qed.

Lemma cover_segments_unrecognized self rw track segs ls rem σ :
  loop_inv self rw track segs ls rem σ →
  Forall unrecognized_segment segs →
  cover_segments self rw σ = (σ, Ok ()).
Proof.
  intros Hinv Hall. unfold cover_segments.
  rewrite (bind_ok _ _ _ _ _ (read_refs_inv _ _ _ _ _ _ _ Hinv)).
  pose proof (records_at _ _ _ _ _ (inv_inputs _ _ _ _ _ _ _ Hinv)) as Hrec.
  rewrite (Forall2_length _ _ _ Hrec).
  apply for_each_noop. intros x Hx. apply elem_of_seq in Hx as [_ Hx].
  destruct (lookup_lt_is_Some_2 segs x) as [seg Hseg]; [lia|].
  apply (cover_segment_unrecognized _ _ _ _ _ _ _ _ seg Hinv Hseg).
  by eapply Forall_lookup_1.
Qed.

Lemma draw_connectors_val_run self rw vs zs first rest σ :
  heap σ !! rw = Some (OList vs) →
  heap σ !! residue_numbers self = Some (OList (first :: rest)) →
  Forall2 (λ v z, py_int v = Ok z) vs zs →
  draw_connectors self rw σ
  = (emit (connector_pass_val (ylim_top σ) first zs) σ, Ok ()).
Proof.
  intros Hw Ht Hall. unfold draw_connectors.
  assert (read_list rw σ = (σ, Ok vs)) as Hr.
  { unfold read_list. by rewrite Hw. }
  rewrite (bind_ok _ _ _ _ _ Hr).
  by apply (draw_connectors_val_from self rw vs first rest vs zs []).
Qed.

(** The call when no segment is of a recognized class. *)
Lemma layout_unrecognized self vs zs segs ls σ :
  inputs_at self vs segs ls (heap σ) →
  Forall unrecognized_segment segs →
  Forall2 (λ v z, py_int v = Ok z) vs zs →
  find_ss_segments_and_generate_overlay self σ
  = (upd (fresh (dom (heap σ))) vs
       (match vs with
        | [] => []
        | first :: _ => connector_pass_val (ylim_top σ) first zs
        end) σ, Ok ()).
Proof.
  intros Hin Hun Hall. unfold find_ss_segments_and_generate_overlay.
  rewrite (bind_ok _ _ _ _ _ (deepcopy_run _ _ _ (track_at _ _ _ _ _ Hin))).
  pose proof (loop_inv_fresh _ _ _ _ _ Hin) as Hinv.
  rewrite (bind_ok _ _ _ _ _ (cover_segments_unrecognized _ _ _ _ _ _ _ Hinv Hun)).
  destruct vs as [|first rest].
  - by rewrite (draw_connectors_empty _ _ _ (inv_worklist _ _ _ _ _ _ _ Hinv)).
  - rewrite (draw_connectors_val_run _ _ _ zs first rest _
               (inv_worklist _ _ _ _ _ _ _ Hinv)
               (track_at _ _ _ _ _ (inv_inputs _ _ _ _ _ _ _ Hinv)) Hall).
    by rewrite emit_upd.
Qed.

Lemma cover_segment_short self rw track segs ls rem σ x seg :
  loop_inv self rw track segs ls rem σ →
  segs !! x = Some seg → short_segment seg →
  cover_segment self rw x σ = (σ, Raise IndexError).
Proof.
  intros Hinv Hx Hshort.
  assert (∀ k, segment_item self x k σ = (σ, getitem seg k)) as Hitem.
  { intros k. rewrite (segment_item_inv _ _ _ _ _ _ _ x k Hinv).
    unfold getitem. by rewrite Hx. }
  unfold cover_segment, mbind, M_bind.
  destruct Hshort as [->|(cls & H0 & Hrec & Hlen)].
  - by rewrite Hitem.
  - assert (seg !! 4%nat = None) as H4 by (apply lookup_ge_None; lia).
    rewrite Hitem. unfold getitem at 1. rewrite H0.
    unfold py_eq. destruct Hrec as [->| ->].
    + rewrite bool_decide_eq_true_2 by done.
      rewrite Hitem. unfold getitem at 1.
      destruct (seg !! 2%nat); [|done].
      rewrite Hitem. unfold getitem at 1. by rewrite H4.
    + rewrite bool_decide_eq_false_2 by done.
      rewrite Hitem. unfold getitem at 1. rewrite H0.
      rewrite bool_decide_eq_true_2 by done.
      rewrite Hitem. unfold getitem at 1.
      destruct (seg !! 2%nat); [|done].
      rewrite Hitem. unfold getitem at 1. by rewrite H4.
Qed.

Lemma add_strand_patch_str a b σ :
  (∃ s, a = VStr s) ∨ (∃ s, b = VStr s) →
  add_strand_patch a b σ = (σ, Raise TypeError).
Proof. intros [[s ->]|[s ->]]; by destruct a || by destruct b. Qed.

Lemma add_helix_patch_str self a b σ :
  (∃ s, a = VStr s) ∨ (∃ s, b = VStr s) →
  add_helix_patch self a b σ = (σ, Raise TypeError).
Proof. intros [[s ->]|[s ->]]; by destruct a || by destruct b. Qed.

Lemma cover_segment_string_bound self rw track segs ls rem σ x seg :
  loop_inv self rw track segs ls rem σ →
  segs !! x = Some seg → string_bound_segment seg →
  cover_segment self rw x σ = (σ, Raise TypeError).
Proof.
  intros Hinv Hx (cls & a & b & H0 & Hrec & H2 & H4 & Hstr).
  assert (∀ k, segment_item self x k σ = (σ, getitem seg k)) as Hitem.
  { intros k. rewrite (segment_item_inv _ _ _ _ _ _ _ x k Hinv).
    unfold getitem. by rewrite Hx. }
  unfold cover_segment, mbind, M_bind.
  rewrite Hitem. unfold getitem at 1. rewrite H0.
  unfold py_eq. destruct Hrec as [->| ->].
  - rewrite bool_decide_eq_true_2 by done.
    rewrite Hitem. unfold getitem at 1. rewrite H2.
    rewrite Hitem. unfold getitem at 1. rewrite H4.
    by rewrite (add_strand_patch_str a b σ Hstr).
  - rewrite bool_decide_eq_false_2 by done.
    rewrite Hitem. unfold getitem at 1. rewrite H0.
    rewrite bool_decide_eq_true_2 by done.
    rewrite Hitem. unfold getitem at 1. rewrite H2.
    rewrite Hitem. unfold getitem at 1. rewrite H4.
    by rewrite (add_helix_patch_str self a b σ Hstr).
Qed.

Lemma cover_all_ok y zs pre rem0 rem :
  zs ≠ [] → Forall typed_segment pre →
  remove_each (flat_map covered pre) rem0 = (rem, Ok ()) →
  cover_all y zs pre rem0
  = (rem, flat_map (segment_patches y (default 0 (last zs))) pre, Ok ()).
Proof.
  intros Hzs Hty Hrm.
  destruct (cover_all_spec y zs pre rem0 Hty (or_introl Hzs)) as (H1 & H2 & H3).
  rewrite Hrm in H1, H2. simpl in H1, H2. specialize (H3 H2).
  destruct (cover_all y zs pre rem0) as [[r ps] o]. simpl in *. by subst.
Qed.

(** A call that stops at the segment after [pre] with the exception [e],
    before it draws anything for that segment. *)
Lemma layout_stops_at self zs pre seg post ls σ rem e :
  inputs_at self (VInt <$> zs) (pre ++ seg :: post) ls (heap σ) →
  Forall typed_segment pre → zs ≠ [] →
  remove_each (flat_map covered pre) (VInt <$> zs) = (rem, Ok ()) →
  (∀ rw σ',
     loop_inv self rw (VInt <$> zs) (pre ++ seg :: post) ls rem σ' →
     cover_segment self rw (length pre) σ' = (σ', Raise e)) →
  find_ss_segments_and_generate_overlay self σ
  = (upd (fresh (dom (heap σ))) rem
       (flat_map (segment_patches (ylim_top σ) (default 0 (last zs))) pre) σ,
     Raise e).
Proof.
  intros Hin Hty Hzs Hrm Hbody.
  rewrite (layout_fails_at self zs pre seg post ls σ rem _ rem [] e Hin Hty
             (cover_all_ok _ _ _ _ _ Hzs Hty Hrm)).
  - by rewrite app_nil_r.
  - intros rw σ' Hinv _. rewrite (Hbody rw σ' Hinv). f_equal. symmetry.
    apply upd_id, (inv_worklist _ _ _ _ _ _ _ Hinv).
Qed.

Lemma connector_pass_val_int y first zs :
  connector_pass_val y (VInt first) zs = connector_pass y first zs.
Proof.
  unfold connector_pass_val, connector_pass. apply list_fmap_ext.
  intros i r _. unfold py_eq.
  destruct (decide (r = first)) as [->|Hne].
  - by rewrite !bool_decide_eq_true_2.
  - rewrite !bool_decide_eq_false_2; [done|done|congruence].
Qed.

Lemma connector_pass_val_str y s zs :
  connector_pass_val y (VStr s) zs = connector y <$> zs.
Proof. unfold connector_pass_val. by apply list_fmap_ext. Qed.

Lemma ints_read_as_ints zs :
  Forall2 (λ v z, py_int v = Ok z) (VInt <$> zs) zs.
Proof. apply Forall2_fmap_l, Forall_Forall2_diag, Forall_forall. done. Qed.

Lemma typed_strand_2_5 : typed_segment strand_2_5.
Proof. exists "Strand", 2, 5. by repeat split. Qed.

Lemma typed_helix_2_5 : typed_segment helix_2_5.
Proof. exists "AlphaHelix", 2, 5. by repeat split. Qed.

(** ** When the removals succeed *)

Lemma remove_each_outcome ys : ∀ rem,
  (remove_each ys rem).2 = Ok () ∨ (remove_each ys rem).2 = Raise ValueError.
Proof.
  induction ys as [|y ys IH]; intros rem; simpl; [by left|].
  destruct (list_remove_outcome (VInt y) rem) as [[r ->]| ->]; [apply IH|].
  by right.
Qed.

Lemma remove_each_ok_iff ys : ∀ zs,
  (remove_each ys (VInt <$> zs)).2 = Ok () ↔ ys ⊆+ zs.
Proof.
  induction ys as [|y ys IH]; intros zs; simpl.
  - split; [intros _; apply submseteq_nil_l|done].
  - split.
    + destruct (list_remove (VInt y) (VInt <$> zs)) as [r| |] eqn:E; try done.
      apply list_remove_int_perm in E as (zs' & -> & Hp).
      intros H. apply IH in H. rewrite Hp. by apply submseteq_skip.
    + intros H. apply submseteq_cons_l in H as (zs' & Hp & H).
      assert (VInt y ∈ VInt <$> zs) as Hin.
      { apply list_elem_of_fmap_2. rewrite Hp. apply list_elem_of_here. }
      destruct (list_remove_present _ _ Hin) as [r E]. rewrite E.
      apply list_remove_int_perm in E as (zs'' & -> & Hp').
      apply IH. rewrite Hp in Hp'. apply Permutation_cons_inv in Hp'.
      by rewrite <- Hp'.
Qed.

Lemma list_remove_int_sublist y : ∀ zs rem',
  list_remove (VInt y) (VInt <$> zs) = Ok rem' →
  ∃ zs', rem' = VInt <$> zs' ∧ sublist zs' zs.
Proof.
  induction zs as [|z zs IH]; intros rem' H; simpl in H; [done|].
  change (list_fmap Z val VInt zs) with (VInt <$> zs) in H.
  destruct (py_eq (VInt z) (VInt y)).
  - injection H as <-. exists zs. split; [done|]. by apply sublist_cons.
  - destruct (list_remove (VInt y) (VInt <$> zs)) as [r| |]; simpl in H; try done.
    injection H as <-. destruct (IH r eq_refl) as (zs' & -> & Hs).
    exists (z :: zs'). split; [done|]. by apply sublist_skip.
Qed.

Lemma remove_each_int_sublist ys : ∀ zs rem,
  remove_each ys (VInt <$> zs) = (VInt <$> rem, Ok ()) → sublist rem zs.
Proof.
  induction ys as [|y ys IH]; intros zs rem H; simpl in H.
  - injection H as H. apply (f_equal ints_of) in H.
    rewrite !ints_of_fmap in H. by subst.
  - destruct (list_remove (VInt y) (VInt <$> zs)) as [r| |] eqn:E; try done.
    apply list_remove_int_sublist in E as (zs' & -> & Hs).
    etrans; [by apply IH|done].
Qed.

Lemma layout_view_outcome y zs segs :
  (layout_view y zs segs).2 = (cover_all y zs segs (VInt <$> zs)).2.
Proof.
  unfold layout_view.
  by destruct (cover_all y zs segs (VInt <$> zs)) as [[r ps] [[]| |]].
Qed.

Lemma layout_outcome self zs segs ls σ :
  inputs_at self (VInt <$> zs) segs ls (heap σ) →
  Forall typed_segment segs → zs ≠ [] →
  (find_ss_segments_and_generate_overlay self σ).2
  = (remove_each (flat_map covered segs) (VInt <$> zs)).2.
Proof.
  intros Hin Hty Hzs. rewrite (layout_run _ _ _ _ _ Hin Hty). cbn [snd].
  rewrite layout_view_outcome.
  by destruct (cover_all_spec (ylim_top σ) zs segs (VInt <$> zs) Hty
                 (or_introl Hzs)) as (_ & H & _).
Qed.

(** ** The number of arcs *)

Lemma arange_count (a b : Z) :
  length (np_arange a b 0.75) = Z.to_nat ((4 * (b - a) + 2) / 3).
Proof.
  rewrite np_arange_length. f_equal.
  assert (Qceiling ((inject_Z b - inject_Z a) / 0.75)
          = - (- ((b * 1 + - a * 1) * 100) / 75)) as -> by reflexivity.
  Z.div_mod_to_equations. lia.
Qed.

Lemma helix_arcs_are_arcs y s e : Forall is_arc (helix_arcs y s e).
Proof.
  unfold helix_arcs. apply Forall_lookup. intros i p Hp.
  rewrite list_lookup_imap in Hp.
  destruct (np_arange _ _ _ !! i); simpl in Hp; [|done].
  by injection Hp as <-.
Qed.

(** ** What the second loop draws *)

Lemma connector_inj y a b : connector y a = connector y b → a = b.
Proof. unfold connector. intros [= H]. lia. Qed.

Lemma first_position_not_drawn y first zs :
  connector y first ∉ connector_pass y first zs.
Proof.
  unfold connector_pass. intros H.
  apply list_elem_of_fmap in H as (r & Hr & _).
  destruct (decide (r = first)) as [->|Hne].
  - rewrite bool_decide_eq_true_2 in Hr by done.
    apply connector_inj in Hr. lia.
  - rewrite bool_decide_eq_false_2 in Hr by done.
    apply connector_inj in Hr. congruence.
Qed.

Lemma covered_empty_range seg :
  (∀ cls s e, segment_of seg cls s e → (e ≤ s)%Z) → covered seg = [].
Proof.
  intros H. unfold covered.
  destruct (seg !! 0%nat) as [[|cls]|] eqn:H0; try done.
  destruct (seg !! 2%nat) as [[s|]|] eqn:H2; try done.
  destruct (seg !! 4%nat) as [[e|]|] eqn:H4; try done.
  destruct (decide (recognized cls)); [|done].
  specialize (H cls s e (conj H0 (conj H2 H4))).
  unfold py_range, seqZ. by replace (Z.to_nat (e - s)) with 0%nat by lia.
Qed.

(** ** The records of the parser *)

Lemma record_of_tokens_ok toks r :
  record_of_tokens toks = Ok r →
  ∃ t0 t1 t2 t3 t4 more z2 z4,
    toks = t0 :: t1 :: t2 :: t3 :: t4 :: more
    ∧ int_of_string t2 = Some z2 ∧ int_of_string t4 = Some z4
    ∧ r = VStr t0 :: VStr t1 :: VInt z2 :: VStr t3 :: VInt z4
            :: (VStr <$> more).
Proof.
  destruct toks as [|t0 [|t1 [|t2 rest]]]; simpl; try done.
  destruct (int_of_string t2) as [z2|] eqn:E2; [|done].
  destruct rest as [|t3 [|t4 more]]; try done.
  destruct (int_of_string t4) as [z4|] eqn:E4; [|done].
  intros [= <-]. by exists t0, t1, t2, t3, t4, more, z2, z4.
Qed.

Lemma record_of_tokens_outcome toks :
  (∃ r, record_of_tokens toks = Ok r)
  ∨ record_of_tokens toks = Raise IndexError
  ∨ record_of_tokens toks = Raise ValueError.
Proof.
  destruct toks as [|t0 [|t1 [|t2 rest]]]; simpl; auto.
  destruct (int_of_string t2) as [z2|]; auto.
  destruct rest as [|t3 [|t4 more]]; auto.
  destruct (int_of_string t4) as [z4|]; eauto.
Qed.

Lemma all_ok_fmap_app {A B} (f : A → outcome B) (l1 l2 : list A) :
  all_ok (f <$> (l1 ++ l2))
  = r1 ← all_ok (f <$> l1); r2 ← all_ok (f <$> l2); Ok (r1 ++ r2).
Proof.
  induction l1 as [|a l1 IH]; simpl.
  - by destruct (all_ok (f <$> l2)).
  - destruct (f a) as [b| |]; simpl; try done.
    change (list_fmap A (outcome B) f (l1 ++ l2)) with (f <$> (l1 ++ l2)).
    change (list_fmap A (outcome B) f l1) with (f <$> l1).
    rewrite IH. destruct (all_ok (f <$> l1)) as [r1| |]; simpl; try done.
    by destruct (all_ok (f <$> l2)).
Qed.

Lemma read_app l1 l2 :
  read_secondary_structure_assignment (l1 ++ l2)
  = r1 ← read_secondary_structure_assignment l1;
    r2 ← read_secondary_structure_assignment l2;
    Ok (r1 ++ r2).
Proof.
  rewrite !read_records_by. unfold records_by.
  by rewrite filter_app, all_ok_fmap_app.
Qed.

Lemma read_single line :
  read_secondary_structure_assignment [line]
  = if decide (str_take 3 line = "LOC")
    then record ← interpret_LOC_line line; Ok [record]
    else Ok [].
Proof.
  rewrite read_records_by. unfold records_by. rewrite filter_cons.
  destruct (decide (str_take 3 line = "LOC")); [|done].
  rewrite filter_nil. simpl. rewrite <- interpret_LOC_line_spec.
  by destruct (interpret_LOC_line line).
Qed.

Lemma short_line_not_LOC line :
  (String.length line < 3)%nat → str_take 3 line ≠ "LOC".
Proof.
  destruct line as [|a [|b [|c r]]]; simpl; intros H; try done. lia.
Qed.

(** ** The results on typed segments *)

Lemma cover_one_outcomes y zs seg rem :
  typed_segment seg →
  (cover_one y zs seg rem).2 = Ok ()
  ∨ (cover_one y zs seg rem).2 = Raise ValueError
  ∨ (zs = [] ∧ (cover_one y zs seg rem).2 = Raise IndexError).
Proof.
  intros (cls & s & e & H0 & H2 & H4). unfold cover_one.
  rewrite H0, H2, H4.
  destruct (decide (cls = "Strand")).
  { destruct (remove_each_outcome (py_range s e) rem); auto. }
  destruct (decide (cls = "AlphaHelix")); [|by left].
  destruct (last zs) as [last_num|] eqn:Hl.
  - destruct (remove_each_outcome (py_range s e) rem); auto.
  - right. right. split; [|done]. by apply last_None.
Qed.

Lemma cover_all_outcomes y zs segs : ∀ rem,
  Forall typed_segment segs →
  (cover_all y zs segs rem).2 = Ok ()
  ∨ (cover_all y zs segs rem).2 = Raise ValueError
  ∨ (zs = [] ∧ (cover_all y zs segs rem).2 = Raise IndexError).
Proof.
  induction segs as [|seg segs IH]; intros rem Hty; simpl; [by left|].
  apply Forall_cons in Hty as [Hseg Hty].
  pose proof (cover_one_outcomes y zs seg rem Hseg) as H1.
  destruct (cover_one y zs seg rem) as [[r ps] [[]| |]]; simpl in *.
  - apply IH, Hty.
  - destruct H1 as [H1|[H1|[? H1]]]; auto.
  - destruct H1 as [H1|[H1|[? H1]]]; done.
Qed.

Lemma layout_outcomes self zs segs ls σ :
  inputs_at self (VInt <$> zs) segs ls (heap σ) →
  Forall typed_segment segs →
  let o := (find_ss_segments_and_generate_overlay self σ).2 in
  o = Ok () ∨ o = Raise ValueError ∨ (zs = [] ∧ o = Raise IndexError).
Proof.
  intros Hin Hty. rewrite (layout_run _ _ _ _ _ Hin Hty). cbn [snd].
  rewrite layout_view_outcome. by apply cover_all_outcomes.
Qed.

Lemma parsed_records_typed stride_lines records :
  read_secondary_structure_assignment stride_lines = Ok records →
  Forall (λ r, typed_segment r ∧ (5 ≤ length r)%nat) records.
Proof.
  rewrite read_records_by. unfold records_by. intros H.
  apply all_ok_Forall2 in H.
  apply Forall2_fmap_l in H. eapply Forall2_Forall_r; [exact H|].
  apply Forall_forall. intros line _ r Hr. simpl in Hr.
  apply record_of_tokens_ok in Hr
    as (t0 & t1 & t2 & t3 & t4 & more & z2 & z4 & _ & _ & _ & ->).
  split; [by exists t0, z2, z4|]. simpl. lia.
Qed.

(** * The claims *)

(** ** The connector pass *)

(** C4. In the connector pass every residue still in the worklist gets one
    connector of length 1: at [residue + 1] when the residue equals the first
    residue of the track, at its own position otherwise.  For the track
    [5..9] and no segment the method adds five connectors, the one of
    residue 5 at position 6 and the others at 6, 7, 8 and 9. *)
Theorem connector_pass_shifts_first_residue
    (self : overlay) (rw : loc) (zs : list Z) (first : Z) (rest : list val)
    (σ : state) :
  heap σ !! rw = Some (OList (VInt <$> zs)) →
  heap σ !! residue_numbers self = Some (OList (VInt first :: rest)) →
  draw_connectors self rw σ
  = (emit ((λ r, if bool_decide (r = first)
                 then Rectangle (r + 1 - 1) (ylim_top σ + 0.08) 1 0.0001
                 else Rectangle (r - 1) (ylim_top σ + 0.08) 1 0.0001)
           <$> zs) σ, Ok ())
  ∧ ∀ self' ls σ',
      inputs_at self' (VInt <$> track_5_9) [] ls (heap σ') →
      let out := find_ss_segments_and_generate_overlay self' σ' in
      out.2 = Ok ()
      ∧ added σ' out.1
        = [connector (ylim_top σ') 6; connector (ylim_top σ') 6;
           connector (ylim_top σ') 7; connector (ylim_top σ') 8;
           connector (ylim_top σ') 9]
      ∧ length (filter is_connector (added σ' out.1)) = 5%nat.
Proof.
  intros Hw Ht. split.
  - by rewrite (draw_connectors_run _ _ _ _ _ _ Hw Ht).
  - intros self' ls σ' Hin out. subst out.
    rewrite (layout_run _ _ _ _ _ Hin (Forall_nil_2 _)).
    simpl. rewrite added_upd. done.
Qed.

Lemma connector_pass_shifts_first_residue_witness :
  let σ := upd 3 (VInt <$> [5; 7]) [] (caller_state 1 (VInt <$> track_5_9) []) in
  heap σ !! 3%positive = Some (OList (VInt <$> [5; 7]))
  ∧ draw_connectors caller_self 3 σ
    = (emit [Rectangle 5 (1 + 0.08) 1 0.0001;
             Rectangle 6 (1 + 0.08) 1 0.0001] σ, Ok ()).
Proof.
  split; [reflexivity|].
  apply (connector_pass_shifts_first_residue caller_self 3 [5; 7] 5
           (VInt <$> [6; 7; 8; 9])); reflexivity.
Defined.

(** ** The helix *)




(** ** The trailing connector *)

(** C2, as stated, fails: on the track [1..10] a helix from 8 to 11 is
    drawn without error, its end 11 is not the last residue 10 of the
    track, and no connector at residue 11 follows its arcs. *)
Lemma helix_past_track_end_gets_no_connector :
  let σ := caller_state 1 (VInt <$> track_1_10) [helix_8_11] in
  let out := find_ss_segments_and_generate_overlay caller_self σ in
  out.2 = Ok ()
  ∧ last track_1_10 = Some 10 ∧ helix_8_11 !! 4%nat = Some (VInt 11)
  ∧ added σ out.1
    = helix_arcs 1 8 11
      ++ connector_pass 1 1 [1; 2; 3; 4; 5; 6; 7]
  ∧ connector 1 11 ∉ added σ out.1.
Proof.
  split_and!; try reflexivity.
  apply (bool_decide_unpack _). vm_compute. exact I.
Qed.

(** C2, amended.  A strand is always followed at once by a connector of
    length 1 at its end residue.  A helix is followed by such a connector
    exactly when its end is smaller than the last residue of the track: a
    helix that ends at the last residue or beyond it gets none.  A call that
    returns has added, segment by segment, these patches, and then the
    connectors of the second loop. *)
Theorem trailing_connector_after_segment
    (self : overlay) (zs : list Z) (segs : list (list val)) (ls : list loc)
    (σ : state) (s e : Z) :
  inputs_at self (VInt <$> zs) segs ls (heap σ) →
  Forall typed_segment segs →
  add_strand_patch (VInt s) (VInt e) σ
  = (emit [strand_arrow (ylim_top σ) s e; connector (ylim_top σ) e] σ, Ok ())
  ∧ (∀ n, last zs = Some n →
       add_helix_patch self (VInt s) (VInt e) σ
       = (emit (helix_arcs (ylim_top σ) s e
                ++ (if bool_decide (e < n) then [connector (ylim_top σ) e]
                    else [])) σ, Ok ()))
  ∧ (let out := find_ss_segments_and_generate_overlay self σ in
     out.2 = Ok () →
     ∃ rem : list Z,
       added σ out.1
       = flat_map (segment_patches (ylim_top σ) (default 0 (last zs))) segs
         ++ connector_pass (ylim_top σ) (default 0 (head zs)) rem).
Proof.
  intros Hin Hty. split_and!.
  - apply add_strand_patch_int.
  - intros n Hn. apply (add_helix_patch_int self s e (VInt <$> zs) (VInt n)).
    + apply (track_at _ _ _ _ _ Hin).
    + by rewrite fmap_last, Hn.
    + done.
  - intros out Hok.
    destruct (layout_ok_spec _ _ _ _ _ Hin Hty Hok) as (rem & _ & _ & H).
    by exists rem.
Qed.

Lemma trailing_connector_after_segment_witness :
  let σ := caller_state 1 (VInt <$> track_1_10) [strand_2_5] in
  add_strand_patch (VInt 2) (VInt 5) σ
  = (emit [strand_arrow 1 2 5; connector 1 5] σ, Ok ()).
Proof.
  intros σ.
  refine (proj1 (trailing_connector_after_segment caller_self track_1_10
                   [strand_2_5] (caller_refs [strand_2_5]) σ 2 5 _ _)).
  - apply caller_state_inputs.
  - repeat constructor. exists "Strand", 2, 5. by repeat split.
Defined.

(** ** The strand scenario *)

(** C3, as stated, fails twice.  With the residue numbers of the record
    written as the strings ['2'] and ['5'] the call raises [TypeError]
    before it adds any patch.  With the integers 2 and 5 the arrow starts
    at 1 and has length 3, so its head ends at 4, not at 5. *)
Lemma strand_scenario_as_stated_fails :
  (let σ := caller_state 1 (VInt <$> track_1_10) [strand_2_5_str] in
   let out := find_ss_segments_and_generate_overlay caller_self σ in
   out.2 = Raise TypeError ∧ added σ out.1 = [])
  ∧ (let σ := caller_state 1 (VInt <$> track_1_10) [strand_2_5] in
     let out := find_ss_segments_and_generate_overlay caller_self σ in
     head (added σ out.1) = Some (strand_arrow 1 2 5)
     ∧ arrow_start (strand_arrow 1 2 5) = Some 1
     ∧ arrow_tip (strand_arrow 1 2 5) = Some 4
     ∧ arrow_tip (strand_arrow 1 2 5) ≠ Some 5).
Proof. by split_and!. Qed.

(** C3, amended.  For the track [1..10] and the one strand from 2 to 5,
    with integer bounds, the call returns and has added nine patches: the
    arrow, which starts at 1 and whose head ends at 4, the connector at the
    end 5 of the strand, and one connector for each of the seven residues
    1, 5, 6, 7, 8, 9, 10 left in the worklist, the one of residue 1 at
    position 2.  That is one arrow and eight connectors, and the residues
    2, 3 and 4 have left the worklist. *)
Theorem strand_scenario
    (self : overlay) (ls : list loc) (σ : state) :
  inputs_at self (VInt <$> track_1_10) [strand_2_5] ls (heap σ) →
  let out := find_ss_segments_and_generate_overlay self σ in
  let y := ylim_top σ in
  out.2 = Ok ()
  ∧ added σ out.1
    = [strand_arrow y 2 5; connector y 5;
       connector y 2; connector y 5; connector y 6; connector y 7;
       connector y 8; connector y 9; connector y 10]
  ∧ arrow_start (strand_arrow y 2 5) = Some 1
  ∧ arrow_tip (strand_arrow y 2 5) = Some 4
  ∧ heap out.1 !! fresh (dom (heap σ))
    = Some (OList (VInt <$> [1; 5; 6; 7; 8; 9; 10]))
  ∧ length (filter is_arrow (added σ out.1)) = 1%nat
  ∧ length (filter is_connector (added σ out.1)) = 8%nat.
Proof.
  intros Hin out y. subst out y.
  assert (Forall typed_segment [strand_2_5]) as Hty.
  { repeat constructor. exists "Strand", 2, 5. by repeat split. }
  rewrite (layout_run _ _ _ _ _ Hin Hty). simpl.
  rewrite added_upd. split_and!; try done.
  apply lookup_insert_eq.
Qed.

Lemma strand_scenario_witness :
  let σ := caller_state 1 (VInt <$> track_1_10) [strand_2_5] in
  let out := find_ss_segments_and_generate_overlay caller_self σ in
  out.2 = Ok () ∧ length (added σ out.1) = 9%nat.
Proof.
  intros σ out.
  destruct (strand_scenario caller_self (caller_refs [strand_2_5]) σ
              (caller_state_inputs 1 _ _)) as (H1 & H2 & _).
  split; [exact H1|]. unfold out. rewrite H2. reflexivity.
Defined.

(** ** The residues taken off the worklist *)

(** C1, as stated, fails when the track repeats a residue number:
    [list.remove] deletes one occurrence only.  On the track [1, 2, 2, 3]
    the strand from 2 to 3 covers residue 2, the call returns, and residue 2
    is still in the worklist and gets its connector in the second loop. *)
Lemma repeated_residue_keeps_its_connector :
  let σ := caller_state 1 (VInt <$> track_1_2_2_3) [strand_2_3] in
  let out := find_ss_segments_and_generate_overlay caller_self σ in
  out.2 = Ok ()
  ∧ covered strand_2_3 = [2]
  ∧ heap out.1 !! fresh (dom (heap σ)) = Some (OList (VInt <$> [1; 2; 3]))
  ∧ added σ out.1
    = [strand_arrow 1 2 3; connector 1 3]
      ++ connector_pass 1 1 [1; 2; 3].
Proof. by split_and!. Qed.

(** C1, amended.  When the call returns, the worklist has lost exactly the
    residues of the ranges [start, start + 1, ..., end - 1] of the recognized
    segments, one occurrence for each: the track is a permutation of these
    residues followed by the final worklist.  The range of a segment does
    not contain its [end].  The second loop draws one connector for each
    residue of the final worklist and, when the track has no repeated
    residue number, no residue of the range of a recognized segment is among
    them. *)
Theorem covered_residues_leave_worklist
    (self : overlay) (zs : list Z) (segs : list (list val)) (ls : list loc)
    (σ : state) :
  inputs_at self (VInt <$> zs) segs ls (heap σ) →
  Forall typed_segment segs →
  let out := find_ss_segments_and_generate_overlay self σ in
  out.2 = Ok () →
  ∃ rem : list Z,
    heap out.1 !! fresh (dom (heap σ)) = Some (OList (VInt <$> rem))
    ∧ zs ≡ₚ flat_map covered segs ++ rem
    ∧ (∀ seg cls s e,
         seg ∈ segs → segment_of seg cls s e → recognized cls →
         covered seg = seqZ s (e - s) ∧ e ∉ covered seg)
    ∧ added σ out.1
      = flat_map (segment_patches (ylim_top σ) (default 0 (last zs))) segs
        ++ connector_pass (ylim_top σ) (default 0 (head zs)) rem
    ∧ (NoDup zs →
       ∀ seg cls s e y,
         seg ∈ segs → segment_of seg cls s e → recognized cls →
         (s ≤ y < e)%Z → y ∉ rem).
Proof.
  intros Hin Hty out Hok.
  destruct (layout_ok_spec _ _ _ _ _ Hin Hty Hok) as (rem & Hrm & Hheap & Hadd).
  exists rem. fold out in Hheap, Hadd.
  pose proof (remove_each_int_perm _ _ _ Hrm) as Hperm.
  split_and!; try done.
  - rewrite Hheap. apply lookup_insert_eq.
  - intros seg cls s e _ Hseg Hrec.
    rewrite (covered_recognized _ _ _ _ Hseg Hrec). split; [done|].
    unfold py_range. rewrite elem_of_seqZ. lia.
  - intros Hnd seg cls s e y Hin' Hseg Hrec Hy Hrem.
    rewrite Hperm in Hnd. apply NoDup_app in Hnd as (_ & Hdisj & _).
    apply (Hdisj y); [|done].
    apply list_elem_of_In, in_flat_map. exists seg.
    split; [by apply list_elem_of_In|]. apply list_elem_of_In.
    rewrite (covered_recognized _ _ _ _ Hseg Hrec).
    unfold py_range. rewrite elem_of_seqZ. lia.
Qed.

Lemma covered_residues_leave_worklist_witness :
  let σ := caller_state 1 (VInt <$> track_1_10) [strand_2_5] in
  let out := find_ss_segments_and_generate_overlay caller_self σ in
  ∃ rem : list Z,
    heap out.1 !! fresh (dom (heap σ)) = Some (OList (VInt <$> rem))
    ∧ track_1_10 ≡ₚ flat_map covered [strand_2_5] ++ rem.
Proof.
  intros σ out.
  assert (Forall typed_segment [strand_2_5]) as Hty.
  { repeat constructor. exists "Strand", 2, 5. by repeat split. }
  destruct (covered_residues_leave_worklist caller_self track_1_10
              [strand_2_5] (caller_refs [strand_2_5]) σ
              (caller_state_inputs 1 _ _) Hty eq_refl)
    as (rem & H1 & H2 & _).
  exists rem. by split.
Defined.

(** ** Removing a residue that is not in the worklist *)

(** C6, as stated, fails on the class of the exception: for the track
    [1, 2, 3] and a strand from 5 to 7 the removal of residue 5 raises
    [ValueError], which is not a [LookupError]. *)
Lemma missing_residue_is_not_a_LookupError :
  let σ := caller_state 1 (VInt <$> [1; 2; 3]) [strand_5_7] in
  let out := find_ss_segments_and_generate_overlay caller_self σ in
  out.2 = Raise ValueError
  ∧ is_LookupError ValueError = false
  ∧ (∀ e, out.2 = Raise e → is_LookupError e = false).
Proof.
  split_and!; try reflexivity.
  intros e H. vm_compute in H. by injection H as <-.
Qed.

(** C6, amended.  On a track that is not empty, when the removals for the
    segments before a recognized segment have succeeded and left the
    worklist [rem], and some residue of the range of that segment is not in
    [rem], the call ends with the [ValueError] of [list.remove]; nothing
    handles it.  (On an empty track a helix raises [IndexError] before any
    removal is tried.) *)
Theorem missing_residue_raises_ValueError
    (self : overlay) (zs : list Z) (pre post : list (list val))
    (seg : list val) (ls : list loc) (σ : state)
    (cls : string) (s e y : Z) (rem : list val) :
  inputs_at self (VInt <$> zs) (pre ++ seg :: post) ls (heap σ) →
  Forall typed_segment (pre ++ seg :: post) →
  zs ≠ [] →
  remove_each (flat_map covered pre) (VInt <$> zs) = (rem, Ok ()) →
  segment_of seg cls s e → recognized cls →
  (s ≤ y < e)%Z → VInt y ∉ rem →
  (find_ss_segments_and_generate_overlay self σ).2 = Raise ValueError.
Proof.
  intros Hin Hty Hzs Hpre Hseg Hrec Hy Hmiss.
  rewrite (layout_run _ _ _ _ _ Hin Hty). simpl. unfold layout_view.
  destruct (cover_all_spec (ylim_top σ) zs (pre ++ seg :: post)
              (VInt <$> zs) Hty (or_introl Hzs)) as (_ & H2 & _).
  assert ((remove_each (flat_map covered (pre ++ seg :: post))
             (VInt <$> zs)).2 = Raise ValueError) as Hfail.
  { rewrite flat_map_app, remove_each_app, Hpre. simpl.
    rewrite remove_each_app.
    assert ((remove_each (covered seg) rem).2 = Raise ValueError) as H.
    { apply (remove_each_missing _ _ y); [|done].
      rewrite (covered_recognized _ _ _ _ Hseg Hrec).
      unfold py_range. rewrite elem_of_seqZ. lia. }
    destruct (remove_each (covered seg) rem) as [r o]. simpl in H. by subst. }
  rewrite Hfail in H2.
  destruct (cover_all _ _ _ _) as [[r ps] o]. simpl in H2. by subst.
Qed.

Lemma missing_residue_raises_ValueError_witness :
  (find_ss_segments_and_generate_overlay caller_self
     (caller_state 1 (VInt <$> [1; 2; 3]) [strand_5_7])).2
  = Raise ValueError.
Proof.
  apply (missing_residue_raises_ValueError caller_self [1; 2; 3] [] []
           strand_5_7 (caller_refs [strand_5_7]) _ "Strand" 5 7 5
           (VInt <$> [1; 2; 3])).
  - apply caller_state_inputs.
  - repeat constructor. exists "Strand", 5, 7. by repeat split.
  - done.
  - reflexivity.
  - by repeat split.
  - by left.
  - lia.
  - apply (bool_decide_unpack _). vm_compute. exact I.
Defined.

(** ** Repeated calls and the caller's lists *)

(** C8. Two calls on the same inputs add the same patches in the same
    order and end in the same way (both return, or both raise the same
    exception): the second of two calls in a row repeats the first, and so
    does a call in any other state that holds the same residue numbers and
    segment records under the same axis limits. *)
Theorem layout_is_deterministic
    (self : overlay) (track : list val) (segs : list (list val))
    (ls : list loc) (σ : state) :
  inputs_at self track segs ls (heap σ) →
  let out1 := find_ss_segments_and_generate_overlay self σ in
  let out2 := find_ss_segments_and_generate_overlay self out1.1 in
  out2.2 = out1.2
  ∧ added out1.1 out2.1 = added σ out1.1
  ∧ (∀ self' ls' σ',
       inputs_at self' track segs ls' (heap σ') →
       ylim_top σ' = ylim_top σ →
       let out' := find_ss_segments_and_generate_overlay self' σ' in
       out'.2 = out1.2 ∧ added σ' out'.1 = added σ out1.1).
Proof.
  intros Hin out1 out2. subst out1 out2.
  destruct layout_function as [G HG].
  rewrite (HG _ _ _ _ _ Hin). simpl.
  set (r := G (ylim_top σ) track segs).
  pose proof (inputs_at_upd_fresh _ _ _ _ r.1.1 r.1.2 _ Hin) as Hin1.
  rewrite (HG _ _ _ _ _ Hin1). simpl. fold r.
  rewrite !added_upd. split_and!; try done.
  intros self' ls' σ' Hin' Hy. rewrite (HG _ _ _ _ _ Hin'). simpl.
  rewrite Hy. fold r. by rewrite added_upd.
Qed.

Lemma layout_is_deterministic_witness :
  let σ := caller_state 1 (VInt <$> track_1_10) [strand_2_5] in
  let out1 := find_ss_segments_and_generate_overlay caller_self σ in
  let out2 := find_ss_segments_and_generate_overlay caller_self out1.1 in
  out2.2 = out1.2 ∧ added out1.1 out2.1 = added σ out1.1.
Proof.
  intros σ out1 out2.
  destruct (layout_is_deterministic caller_self (VInt <$> track_1_10)
              [strand_2_5] (caller_refs [strand_2_5]) σ
              (caller_state_inputs 1 _ _)) as (H1 & H2 & _).
  by split.
Defined.

(** C9. A call changes none of the list objects that exist when it starts:
    the residue numbers, the list of segments and every segment record hold
    the same items afterwards, whether the call returns or raises.  The
    worklist is a list object of its own, at a reference that was not in use
    before the call. *)
Theorem layout_never_mutates_inputs (self : overlay) (σ : state) :
  let out := find_ss_segments_and_generate_overlay self σ in
  (∀ l o, heap σ !! l = Some o → heap out.1 !! l = Some o)
  ∧ (∀ track segs ls,
       inputs_at self track segs ls (heap σ) →
       inputs_at self track segs ls (heap out.1)
       ∧ (fresh (dom (heap σ)) ∉ dom (heap σ))
       ∧ (∃ rem, heap out.1 !! fresh (dom (heap σ)) = Some (OList rem))).
Proof.
  intros out. subst out. split.
  - intros l o. apply layout_preserves_objects.
  - intros track segs ls Hin. split_and!.
    + destruct Hin as [Ht Hs Hrec]. split.
      * by apply layout_preserves_objects.
      * by apply layout_preserves_objects.
      * eapply Forall2_impl; [apply Hrec|]. intros l seg.
        apply layout_preserves_objects.
    + apply is_fresh.
    + destruct layout_function as [G HG]. rewrite (HG _ _ _ _ _ Hin).
      simpl. eexists. apply lookup_insert_eq.
Qed.

(** ** The records of a stride file *)

(** C5, as stated, fails on "splits on whitespace": the fields are split at
    space characters only.  In a selected line that has a tab after the
    marker, the tab stays in the first field, where a split on whitespace
    would drop it. *)
Lemma tab_does_not_separate_fields :
  read_secondary_structure_assignment [tabbed_line]
  = Ok [[VStr (String tab "AlphaHelix"); VStr "GLU"; VInt 79; VStr "MET";
         VInt 99]]
  ∧ records_by is_space [tabbed_line]
    = Ok [[VStr "AlphaHelix"; VStr "GLU"; VInt 79; VStr "MET"; VInt 99]]
  ∧ read_secondary_structure_assignment [tabbed_line]
    ≠ records_by is_space [tabbed_line].
Proof. split_and!; [reflexivity|reflexivity|by vm_compute]. Qed.

(** C5, amended.  The function keeps exactly the lines whose first three
    characters are [LOC].  From each of them it deletes, in this order, the
    hyphens, the occurrences of [LOC], the tildes and the chain tokens
    [" A "] and [" B "]; the tokens are the maximal runs of characters other
    than the space character; the tokens 2 and 4 become integers and the
    others are kept as they are.  The records come in the order of the
    lines, and the line of the example gives
    [['AlphaHelix', 'GLU', 79, 'MET', 99]]. *)
Theorem LOC_lines_become_records (stride_lines : list string) :
  read_secondary_structure_assignment stride_lines
  = all_ok ((λ line, record_of_tokens (words is_blank (strip_noise line)))
              <$> filter (λ line, str_take 3 line = "LOC") stride_lines)
  ∧ read_secondary_structure_assignment [helix_line]
    = Ok [[VStr "AlphaHelix"; VStr "GLU"; VInt 79; VStr "MET"; VInt 99]]
  ∧ (∀ lines1 lines2 records1 records2,
       read_secondary_structure_assignment lines1 = Ok records1 →
       read_secondary_structure_assignment lines2 = Ok records2 →
       read_secondary_structure_assignment (lines1 ++ lines2)
       = Ok (records1 ++ records2)).
Proof.
  split_and!.
  - apply read_records_by.
  - reflexivity.
  - intros lines1 lines2 records1 records2. rewrite !read_records_by.
    unfold records_by. rewrite filter_app, fmap_app. apply all_ok_app.
Qed.

(** C10. The hyphens of a selected line are deleted before the line is
    split, so no field of a record contains a hyphen and the two residue
    numbers of every record are integers greater than or equal to zero.  A
    line gives the same record as the line without its hyphens: a negative
    residue number is read as its absolute value, it is not rejected. *)
Theorem parsed_residue_numbers_are_not_negative
    (stride_lines : list string) (records : list (list val)) :
  read_secondary_structure_assignment stride_lines = Ok records →
  Forall (λ record,
            (∃ z2 z4 : Z,
               record !! 2%nat = Some (VInt z2)
               ∧ record !! 4%nat = Some (VInt z4)
               ∧ (0 ≤ z2)%Z ∧ (0 ≤ z4)%Z)
            ∧ (∀ s, VStr s ∈ record → ¬ occurs "-" s)) records
  ∧ (∀ line,
       interpret_LOC_line (str_remove "-" line) = interpret_LOC_line line)
  ∧ read_secondary_structure_assignment [negative_line]
    = Ok [[VStr "Strand"; VStr "GLY"; VInt 2; VStr "LYS"; VInt 5]].
Proof.
  intros Hread. split_and!.
  - rewrite read_records_by in Hread. unfold records_by in Hread.
    apply all_ok_Forall2 in Hread.
    apply Forall2_fmap_l in Hread.
    eapply Forall2_Forall_r; [exact Hread|].
    apply Forall_forall. intros line _ record Hrec.
    unfold compose in Hrec.
    pose proof (strip_noise_hyphen line) as Hno.
    assert (∀ w c, w ∈ words is_blank (strip_noise line) →
                   c = "-"%char → ¬ occurs c w) as Hw.
    { intros w c Hin -> Ho. apply Hno.
      by apply (words_occurs "-" is_blank _ w). }
    destruct (words is_blank (strip_noise line))
      as [|t0 [|t1 [|t2 rest]]]; simpl in Hrec; try done.
    destruct (int_of_string t2) as [z2|] eqn:E2; [|done].
    destruct rest as [|t3 [|t4 more]]; try done.
    destruct (int_of_string t4) as [z4|] eqn:E4; [|done].
    injection Hrec as <-. split.
    + exists z2, z4. split_and!; try done.
      * apply (int_of_string_nonneg t2); [|done].
        apply (Hw t2); [|done]. set_solver.
      * apply (int_of_string_nonneg t4); [|done].
        apply (Hw t4); [|done]. set_solver.
    + intros s Hs. apply (Hw s); [|done].
      rewrite !elem_of_cons in Hs. rewrite !elem_of_cons.
      destruct Hs as [Hs|[Hs|[Hs|[Hs|[Hs|Hs]]]]];
        try discriminate Hs; try (injection Hs as ->; auto 10).
      apply list_elem_of_fmap in Hs as (w & Heq & Hin).
      injection Heq as ->. auto 10.
  - intros line. rewrite !interpret_LOC_line_spec.
    by rewrite strip_noise_idempotent_on_hyphens.
  - reflexivity.
Qed.

Lemma parsed_residue_numbers_are_not_negative_witness :
  Forall (λ record,
            (∃ z2 z4 : Z,
               record !! 2%nat = Some (VInt z2)
               ∧ record !! 4%nat = Some (VInt z4)
               ∧ (0 ≤ z2)%Z ∧ (0 ≤ z4)%Z)
            ∧ (∀ s, VStr s ∈ record → ¬ occurs "-" s))
    [[VStr "Strand"; VStr "GLY"; VInt 2; VStr "LYS"; VInt 5]].
Proof.
  exact (proj1 (parsed_residue_numbers_are_not_negative [negative_line]
                  [[VStr "Strand"; VStr "GLY"; VInt 2; VStr "LYS"; VInt 5]]
                  eq_refl)).
Defined.

(** * Further properties of the overlay *)

(** ** Segments of other classes *)

(** X1. Segments whose class is neither ['Strand'] nor ['AlphaHelix'] are
    skipped, whatever their other fields are: when no segment is of a
    recognized class the call returns, keeps every residue in the worklist
    and draws one connector per residue of the track and nothing else. *)
Theorem unrecognized_segments_draw_nothing
    (self : overlay) (zs : list Z) (segs : list (list val)) (ls : list loc)
    (σ : state) :
  inputs_at self (VInt <$> zs) segs ls (heap σ) →
  Forall unrecognized_segment segs →
  let out := find_ss_segments_and_generate_overlay self σ in
  out.2 = Ok ()
  ∧ heap out.1 !! fresh (dom (heap σ)) = Some (OList (VInt <$> zs))
  ∧ added σ out.1 = connector_pass (ylim_top σ) (default 0 (head zs)) zs
  ∧ length (added σ out.1) = length zs.
Proof.
  intros Hin Hun out. subst out.
  rewrite (layout_unrecognized _ _ _ _ _ _ Hin Hun (ints_read_as_ints zs)).
  cbn [fst snd]. rewrite added_upd. split_and!; try done.
  - apply lookup_insert_eq.
  - destruct zs as [|z zs]; [done|].
    by rewrite fmap_cons, connector_pass_val_int.
  - destruct zs as [|z zs]; [done|].
    rewrite fmap_cons, connector_pass_val_int.
    unfold connector_pass. by rewrite length_fmap.
Qed.

Lemma unrecognized_segments_draw_nothing_witness :
  let σ := caller_state 1 (VInt <$> track_5_9) [turn_6_8] in
  let out := find_ss_segments_and_generate_overlay caller_self σ in
  out.2 = Ok () ∧ length (added σ out.1) = 5%nat.
Proof.
  intros σ out.
  destruct (unrecognized_segments_draw_nothing caller_self track_5_9
              [turn_6_8] (caller_refs [turn_6_8]) σ
              (caller_state_inputs 1 _ _)) as (H1 & _ & _ & H4).
  { repeat constructor. exists (VStr "TurnI"). by split_and!. }
  split; [exact H1|exact H4].
Defined.

(** ** Records that cannot be read *)

(** X2. A segment record that is empty, or that is of a recognized class
    and has fewer than five fields, makes the call raise [IndexError]
    before anything is drawn for it: the axis holds the patches of the
    segments before it, the worklist is as those segments left it, and the
    second loop does not run. *)
Theorem short_record_raises_IndexError
    (self : overlay) (zs : list Z) (pre post : list (list val))
    (seg : list val) (ls : list loc) (σ : state) (rem : list val) :
  inputs_at self (VInt <$> zs) (pre ++ seg :: post) ls (heap σ) →
  Forall typed_segment pre → zs ≠ [] →
  remove_each (flat_map covered pre) (VInt <$> zs) = (rem, Ok ()) →
  short_segment seg →
  let out := find_ss_segments_and_generate_overlay self σ in
  out.2 = Raise IndexError
  ∧ added σ out.1
    = flat_map (segment_patches (ylim_top σ) (default 0 (last zs))) pre
  ∧ heap out.1 !! fresh (dom (heap σ)) = Some (OList rem).
Proof.
  intros Hin Hty Hzs Hrm Hshort out. subst out.
  rewrite (layout_stops_at self zs pre seg post ls σ rem IndexError
             Hin Hty Hzs Hrm).
  - cbn [fst snd]. rewrite added_upd. split_and!; try done.
    apply lookup_insert_eq.
  - intros rw σ' Hinv.
    apply (cover_segment_short _ _ _ _ _ _ _ _ seg Hinv); [|done].
    by rewrite list_lookup_middle.
Qed.

Lemma short_record_raises_IndexError_witness :
  let σ := caller_state 1 (VInt <$> track_1_10) [strand_2_5; short_strand] in
  let out := find_ss_segments_and_generate_overlay caller_self σ in
  out.2 = Raise IndexError ∧ length (added σ out.1) = 2%nat.
Proof.
  intros σ out.
  destruct (short_record_raises_IndexError caller_self track_1_10
              [strand_2_5] [] short_strand
              (caller_refs [strand_2_5; short_strand]) σ
              (VInt <$> [1; 5; 6; 7; 8; 9; 10])
              (caller_state_inputs 1 _ _)) as (H1 & H2 & _).
  - repeat constructor. apply typed_strand_2_5.
  - done.
  - reflexivity.
  - right. exists "Strand". split_and!; [done|by left|simpl; lia].
  - split; [exact H1|]. fold out in H2. rewrite H2. reflexivity.
Defined.

(** X3. A segment of a recognized class one of whose bounds is a string
    makes the call raise [TypeError] before anything is drawn for it, in
    the same way. *)
Theorem string_bound_raises_TypeError
    (self : overlay) (zs : list Z) (pre post : list (list val))
    (seg : list val) (ls : list loc) (σ : state) (rem : list val) :
  inputs_at self (VInt <$> zs) (pre ++ seg :: post) ls (heap σ) →
  Forall typed_segment pre → zs ≠ [] →
  remove_each (flat_map covered pre) (VInt <$> zs) = (rem, Ok ()) →
  string_bound_segment seg →
  let out := find_ss_segments_and_generate_overlay self σ in
  out.2 = Raise TypeError
  ∧ added σ out.1
    = flat_map (segment_patches (ylim_top σ) (default 0 (last zs))) pre
  ∧ heap out.1 !! fresh (dom (heap σ)) = Some (OList rem).
Proof.
  intros Hin Hty Hzs Hrm Hstr out. subst out.
  rewrite (layout_stops_at self zs pre seg post ls σ rem TypeError
             Hin Hty Hzs Hrm).
  - cbn [fst snd]. rewrite added_upd. split_and!; try done.
    apply lookup_insert_eq.
  - intros rw σ' Hinv.
    apply (cover_segment_string_bound _ _ _ _ _ _ _ _ seg Hinv); [|done].
    by rewrite list_lookup_middle.
Qed.

Lemma string_bound_raises_TypeError_witness :
  let σ := caller_state 1 (VInt <$> track_1_10) [helix_2_5; strand_2_5_str] in
  let out := find_ss_segments_and_generate_overlay caller_self σ in
  out.2 = Raise TypeError ∧ length (added σ out.1) = 5%nat.
Proof.
  intros σ out.
  destruct (string_bound_raises_TypeError caller_self track_1_10
              [helix_2_5] [] strand_2_5_str
              (caller_refs [helix_2_5; strand_2_5_str]) σ
              (VInt <$> [1; 5; 6; 7; 8; 9; 10])
              (caller_state_inputs 1 _ _)) as (H1 & H2 & _).
  - repeat constructor. apply typed_helix_2_5.
  - done.
  - reflexivity.
  - exists "Strand", (VStr "2"), (VStr "5").
    split_and!; [done|by left|done|done|left; by eexists].
  - split; [exact H1|]. fold out in H2. rewrite H2. reflexivity.
Defined.

(** X4. On an empty track a helix is drawn, and then the test against the
    last residue of the track raises [IndexError]: the arcs stay on the
    axis and nothing else is drawn. *)
Theorem helix_on_empty_track_raises_IndexError
    (self : overlay) (seg : list val) (post : list (list val))
    (ls : list loc) (σ : state) (s e : Z) :
  inputs_at self [] (seg :: post) ls (heap σ) →
  segment_of seg "AlphaHelix" s e →
  let out := find_ss_segments_and_generate_overlay self σ in
  out.2 = Raise IndexError
  ∧ added σ out.1 = helix_arcs (ylim_top σ) s e
  ∧ heap out.1 !! fresh (dom (heap σ)) = Some (OList []).
Proof.
  intros Hin Hseg out. subst out.
  rewrite (layout_fails_at self [] [] seg post ls σ [] [] []
             (helix_arcs (ylim_top σ) s e) IndexError Hin
             (Forall_nil_2 _) eq_refl).
  - cbn [fst snd]. rewrite added_upd. split_and!; try done.
    apply lookup_insert_eq.
  - intros rw σ' Hinv Hy.
    assert (typed_segment seg) as Hty by (by exists "AlphaHelix", s, e).
    cbn [length].
    rewrite (cover_segment_typed self rw [] _ ls [] σ' 0 seg Hinv eq_refl Hty).
    destruct Hseg as (H0 & H2 & H4). unfold cover_one.
    rewrite H0, H2, H4, Hy. reflexivity.
Qed.

Lemma helix_on_empty_track_raises_IndexError_witness :
  let σ := caller_state 1 [] [helix_2_5] in
  let out := find_ss_segments_and_generate_overlay caller_self σ in
  out.2 = Raise IndexError ∧ length (added σ out.1) = 4%nat.
Proof.
  intros σ out.
  destruct (helix_on_empty_track_raises_IndexError caller_self helix_2_5 []
              (caller_refs [helix_2_5]) σ 2 5
              (caller_state_inputs 1 [] [helix_2_5])) as (H1 & H2 & _).
  - by repeat split.
  - split; [exact H1|]. fold out in H2. rewrite H2. reflexivity.
Defined.

(** ** A removal that fails *)

(** X5. When a residue of the range of a recognized segment is missing from
    the worklist, the call has already drawn that segment when it raises:
    the axis holds the patches of all segments up to and including the
    failing one and no connector of the second loop, and the worklist has
    lost the residues of the range that come before the missing one. *)
Theorem failed_removal_leaves_partial_drawing
    (self : overlay) (zs : list Z) (pre post : list (list val))
    (seg : list val) (ls : list loc) (σ : state)
    (cls : string) (s e y : Z) (rem : list val) :
  inputs_at self (VInt <$> zs) (pre ++ seg :: post) ls (heap σ) →
  Forall typed_segment pre → zs ≠ [] →
  remove_each (flat_map covered pre) (VInt <$> zs) = (rem, Ok ()) →
  segment_of seg cls s e → recognized cls →
  (s ≤ y < e)%Z → VInt y ∉ rem →
  let out := find_ss_segments_and_generate_overlay self σ in
  out.2 = Raise ValueError
  ∧ added σ out.1
    = flat_map (segment_patches (ylim_top σ) (default 0 (last zs)))
        (pre ++ [seg])
  ∧ heap out.1 !! fresh (dom (heap σ))
    = Some (OList (remove_each (seqZ s (e - s)) rem).1).
Proof.
  intros Hin Hty Hzs Hrm Hseg Hrec Hy Hmiss out. subst out.
  assert (typed_segment seg) as Hseg_ty by (by exists cls, s, e).
  assert ((remove_each (covered seg) rem).2 = Raise ValueError) as Hfail.
  { apply (remove_each_missing _ _ y); [|done].
    rewrite (covered_recognized _ _ _ _ Hseg Hrec).
    unfold py_range. rewrite elem_of_seqZ. lia. }
  rewrite (layout_fails_at self zs pre seg post ls σ rem _
             (remove_each (covered seg) rem).1
             (segment_patches (ylim_top σ) (default 0 (last zs)) seg)
             ValueError Hin Hty (cover_all_ok _ _ _ _ _ Hzs Hty Hrm)).
  - cbn [fst snd]. rewrite added_upd. split_and!; try done.
    + rewrite flat_map_app. simpl. by rewrite app_nil_r.
    + rewrite (covered_recognized _ _ _ _ Hseg Hrec). apply lookup_insert_eq.
  - intros rw σ' Hinv Hy'.
    rewrite (cover_segment_typed self rw zs _ ls rem σ' (length pre) seg Hinv);
      [|by rewrite list_lookup_middle|done].
    rewrite (cover_one_spec _ zs seg rem Hseg_ty (or_introl Hzs)).
    cbn [fst snd]. by rewrite Hfail, Hy'.
Qed.

Lemma failed_removal_leaves_partial_drawing_witness :
  let σ := caller_state 1 (VInt <$> [1; 2; 3; 5; 6]) [strand_2_5] in
  let out := find_ss_segments_and_generate_overlay caller_self σ in
  out.2 = Raise ValueError
  ∧ added σ out.1 = [strand_arrow 1 2 5; connector 1 5]
  ∧ heap out.1 !! fresh (dom (heap σ)) = Some (OList (VInt <$> [1; 5; 6])).
Proof.
  intros σ out.
  destruct (failed_removal_leaves_partial_drawing caller_self
              [1; 2; 3; 5; 6] [] [] strand_2_5 (caller_refs [strand_2_5]) σ
              "Strand" 2 5 4 (VInt <$> [1; 2; 3; 5; 6])
              (caller_state_inputs 1 _ _)) as (H1 & H2 & H3).
  - constructor.
  - done.
  - reflexivity.
  - by repeat split.
  - by left.
  - lia.
  - apply (bool_decide_unpack _). vm_compute. exact I.
  - split_and!; [exact H1|exact H2|exact H3].
Defined.

(** ** When the call returns *)

(** X6. On a track that is not empty, a call on typed segments returns
    exactly when the residues of the ranges of the recognized segments,
    counted with repetition, are all in the track; otherwise it raises
    [ValueError].  In particular it returns when these ranges do not
    overlap and lie inside the track. *)
Theorem layout_returns_iff_ranges_fit
    (self : overlay) (zs : list Z) (segs : list (list val)) (ls : list loc)
    (σ : state) :
  inputs_at self (VInt <$> zs) segs ls (heap σ) →
  Forall typed_segment segs → zs ≠ [] →
  let out := find_ss_segments_and_generate_overlay self σ in
  (out.2 = Ok () ↔ flat_map covered segs ⊆+ zs)
  ∧ (out.2 = Ok () ∨ out.2 = Raise ValueError)
  ∧ (NoDup (flat_map covered segs) →
     (∀ y, y ∈ flat_map covered segs → y ∈ zs) →
     out.2 = Ok ()).
Proof.
  intros Hin Hty Hzs out. subst out.
  rewrite (layout_outcome _ _ _ _ _ Hin Hty Hzs). split_and!.
  - apply remove_each_ok_iff.
  - apply remove_each_outcome.
  - intros Hnd Hsub. apply remove_each_ok_iff. by apply NoDup_submseteq.
Qed.

Lemma layout_returns_iff_ranges_fit_witness :
  let σ := caller_state 1 (VInt <$> track_1_10) [strand_2_5; helix_8_11] in
  (find_ss_segments_and_generate_overlay caller_self σ).2 = Ok ().
Proof.
  intros σ.
  destruct (layout_returns_iff_ranges_fit caller_self track_1_10
              [strand_2_5; helix_8_11]
              (caller_refs [strand_2_5; helix_8_11]) σ
              (caller_state_inputs 1 _ _)) as (_ & _ & H).
  - repeat constructor; [apply typed_strand_2_5|].
    exists "AlphaHelix", 8, 11. by repeat split.
  - done.
  - apply H.
    + apply (bool_decide_unpack _). vm_compute. exact I.
    + intros y Hy. apply (bool_decide_unpack _).
      revert y Hy. apply Forall_forall.
      apply (bool_decide_unpack _). vm_compute. exact I.
Defined.

(** X7. When the call returns, the final worklist is the track without the
    removed residues, in the order of the track, and the second loop draws
    as many connectors as the track has residues less the residues of the
    ranges of the recognized segments. *)
Theorem uncovered_residues_keep_track_order
    (self : overlay) (zs : list Z) (segs : list (list val)) (ls : list loc)
    (σ : state) :
  inputs_at self (VInt <$> zs) segs ls (heap σ) →
  Forall typed_segment segs →
  let out := find_ss_segments_and_generate_overlay self σ in
  out.2 = Ok () →
  ∃ rem : list Z,
    heap out.1 !! fresh (dom (heap σ)) = Some (OList (VInt <$> rem))
    ∧ sublist rem zs
    ∧ (length rem + length (flat_map covered segs) = length zs)%nat
    ∧ drop (length (flat_map (segment_patches (ylim_top σ)
                                (default 0 (last zs))) segs))
           (added σ out.1)
      = connector_pass (ylim_top σ) (default 0 (head zs)) rem
    ∧ length (connector_pass (ylim_top σ) (default 0 (head zs)) rem)
      = (length zs - length (flat_map covered segs))%nat.
Proof.
  intros Hin Hty out Hok.
  destruct (layout_ok_spec _ _ _ _ _ Hin Hty Hok) as (rem & Hrm & Hheap & Hadd).
  fold out in Hheap, Hadd. exists rem.
  pose proof (remove_each_int_perm _ _ _ Hrm) as Hperm.
  assert (length zs = length (flat_map covered segs) + length rem)%nat as Hlen.
  { by rewrite Hperm, length_app. }
  split_and!.
  - rewrite Hheap. apply lookup_insert_eq.
  - by apply (remove_each_int_sublist _ _ _ Hrm).
  - lia.
  - rewrite Hadd. by rewrite drop_app_length.
  - unfold connector_pass. rewrite length_fmap. lia.
Qed.

Lemma uncovered_residues_keep_track_order_witness :
  let σ := caller_state 1 (VInt <$> track_1_10) [strand_2_5] in
  let out := find_ss_segments_and_generate_overlay caller_self σ in
  ∃ rem : list Z,
    heap out.1 !! fresh (dom (heap σ)) = Some (OList (VInt <$> rem))
    ∧ sublist rem track_1_10 ∧ length rem = 7%nat.
Proof.
  intros σ out.
  destruct (uncovered_residues_keep_track_order caller_self track_1_10
              [strand_2_5] (caller_refs [strand_2_5]) σ
              (caller_state_inputs 1 _ _)) as (rem & H1 & H2 & H3 & _).
  - repeat constructor. apply typed_strand_2_5.
  - reflexivity.
  - exists rem. split_and!; [exact H1|exact H2|].
    change (length (flat_map covered [strand_2_5])) with 3%nat in H3.
    change (length track_1_10) with 10%nat in H3. lia.
Defined.

(** ** The axis *)

(** X8. In any state, and whether the call returns or raises, the patches
    that were on the axis stay where they are and the new ones come after
    them; every new patch is drawn at 0.08 above the top of the axis, and
    the limits of the axis are not changed. *)
Theorem patches_are_only_added (self : overlay) (σ : state) :
  let out := find_ss_segments_and_generate_overlay self σ in
  ax_patches σ `prefix_of` ax_patches out.1
  ∧ ax_patches out.1 = ax_patches σ ++ added σ out.1
  ∧ Forall (λ p, patch_y p = (ylim_top σ + 0.08)%Q) (added σ out.1)
  ∧ ylim_top out.1 = ylim_top σ.
Proof.
  intros out. subst out.
  destruct (draws_at_layout (ylim_top σ) self σ eq_refl)
    as (Hy & ps & Hps & Hall).
  unfold added. rewrite Hps, drop_app_length. split_and!; try done.
  by apply prefix_app_r.
Qed.

(** ** The helix and the strand *)

(** X9. A helix from [s] to [e] is drawn with [ceil (4 * (e - s) / 3)]
    arcs, that is [(4 * (e - s) + 2) / 3] rounded down, and with none when
    [e <= s]; only the trailing connector can follow them. *)
Theorem helix_arc_count
    (self : overlay) (s e : Z) (track : list val) (v : val) (n : Z)
    (σ : state) :
  heap σ !! residue_numbers self = Some (OList track) →
  last track = Some v → py_int v = Ok n →
  let out := add_helix_patch self (VInt s) (VInt e) σ in
  ∃ arcs,
    added σ out.1
    = arcs ++ (if bool_decide (e < n) then [connector (ylim_top σ) e]
               else [])
    ∧ Forall is_arc arcs
    ∧ length arcs = Z.to_nat ((4 * (e - s) + 2) / 3)
    ∧ ((e ≤ s)%Z → arcs = []).
Proof.
  intros Ht Hl Hn out. subst out.
  rewrite (add_helix_patch_int _ s e _ _ n σ Ht Hl Hn). cbn [fst].
  rewrite added_emit. exists (helix_arcs (ylim_top σ) s e).
  assert (length (helix_arcs (ylim_top σ) s e)
          = Z.to_nat ((4 * (e - s) + 2) / 3)) as Hlen.
  { unfold helix_arcs. rewrite length_imap, arange_count. f_equal.
    f_equal. lia. }
  split_and!; try done.
  - apply helix_arcs_are_arcs.
  - intros Hes. apply length_zero_iff_nil. rewrite Hlen.
    assert ((4 * (e - s) + 2) / 3 ≤ 0)%Z; [|lia].
    Z.div_mod_to_equations. lia.
Qed.

Lemma helix_arc_count_witness :
  let σ := caller_state 1 (VInt <$> track_1_10) [] in
  let out := add_helix_patch caller_self (VInt 2) (VInt 9) σ in
  ∃ arcs, added σ out.1 = arcs ++ [connector 1 9] ∧ length arcs = 10%nat.
Proof.
  intros σ out.
  destruct (helix_arc_count caller_self 2 9 (VInt <$> track_1_10)
              (VInt 10) 10 σ eq_refl eq_refl eq_refl)
    as (arcs & H1 & _ & H3 & _).
  exists arcs. split; [exact H1|exact H3].
Defined.

(** ** The second loop *)

(** X10. The second loop never draws a connector at the position of the
    first residue of the track: that residue is drawn one position to the
    right, where it coincides with the connector of the next residue when
    both are in the worklist. *)
Theorem first_position_is_left_blank
    (self : overlay) (rw : loc) (zs : list Z) (first : Z) (rest : list val)
    (σ : state) :
  heap σ !! rw = Some (OList (VInt <$> zs)) →
  heap σ !! residue_numbers self = Some (OList (VInt first :: rest)) →
  let out := draw_connectors self rw σ in
  (connector (ylim_top σ) first ∉ added σ out.1)
  ∧ (∀ i j : nat,
       zs !! i = Some first → zs !! j = Some (first + 1) →
       i ≠ j
       ∧ added σ out.1 !! i = Some (connector (ylim_top σ) (first + 1))
       ∧ added σ out.1 !! j = Some (connector (ylim_top σ) (first + 1))).
Proof.
  intros Hw Ht out. subst out.
  rewrite (draw_connectors_run _ _ _ _ _ _ Hw Ht). cbn [fst].
  rewrite added_emit. split.
  - apply first_position_not_drawn.
  - intros i j Hi Hj. unfold connector_pass. rewrite !list_lookup_fmap.
    rewrite Hi, Hj. simpl.
    rewrite bool_decide_eq_true_2 by done.
    rewrite bool_decide_eq_false_2 by lia.
    split_and!; try done. intros ->. rewrite Hi in Hj. injection Hj. lia.
Qed.

Lemma first_position_is_left_blank_witness :
  let σ := upd 3 (VInt <$> [5; 6]) [] (caller_state 1 (VInt <$> track_5_9) []) in
  connector 1 5 ∉ added σ (draw_connectors caller_self 3 σ).1.
Proof.
  intros σ.
  exact (proj1 (first_position_is_left_blank caller_self 3 [5; 6] 5
                  [VInt 6; VInt 7; VInt 8; VInt 9] σ eq_refl eq_refl)).
Defined.

(** X11. The residue numbers of the track may be numerals in strings: the
    second loop reads each with [int()] and draws its connector.  The
    first residue is then not moved to the right, because an integer is
    never equal to the string it is compared with. *)
Theorem string_track_is_drawn_unshifted
    (self : overlay) (vs : list val) (zs : list Z) (segs : list (list val))
    (ls : list loc) (σ : state) (s : string) (rest : list val) :
  inputs_at self vs segs ls (heap σ) →
  Forall unrecognized_segment segs →
  Forall2 (λ v z, py_int v = Ok z) vs zs →
  vs = VStr s :: rest →
  let out := find_ss_segments_and_generate_overlay self σ in
  out.2 = Ok ()
  ∧ added σ out.1 = connector (ylim_top σ) <$> zs.
Proof.
  intros Hin Hun Hall Hvs out. subst out.
  rewrite (layout_unrecognized _ _ _ _ _ _ Hin Hun Hall). cbn [fst snd].
  rewrite added_upd. split; [done|]. rewrite Hvs.
  apply connector_pass_val_str.
Qed.

Lemma string_track_is_drawn_unshifted_witness :
  let σ := caller_state 1 numeral_track [] in
  let out := find_ss_segments_and_generate_overlay caller_self σ in
  out.2 = Ok ()
  ∧ added σ out.1 = [connector 1 5; connector 1 6; connector 1 7].
Proof.
  intros σ out.
  destruct (string_track_is_drawn_unshifted caller_self numeral_track
              [5; 6; 7] [] (caller_refs []) σ "5" [VStr "6"; VStr "7"]
              (caller_state_inputs 1 _ _)) as (H1 & H2).
  - constructor.
  - repeat constructor.
  - reflexivity.
  - split; [exact H1|exact H2].
Defined.

(** X12. Segments whose end is not greater than their start take nothing
    off the worklist and cannot make the call fail: on a track that is not
    empty the call returns, the worklist is the whole track, and every
    residue gets its connector in the second loop, after the patches of
    the segments. *)
Theorem empty_ranges_remove_nothing
    (self : overlay) (zs : list Z) (segs : list (list val)) (ls : list loc)
    (σ : state) :
  inputs_at self (VInt <$> zs) segs ls (heap σ) →
  Forall typed_segment segs → zs ≠ [] →
  Forall (λ seg, ∀ cls s e, segment_of seg cls s e → (e ≤ s)%Z) segs →
  let out := find_ss_segments_and_generate_overlay self σ in
  out.2 = Ok ()
  ∧ heap out.1 !! fresh (dom (heap σ)) = Some (OList (VInt <$> zs))
  ∧ added σ out.1
    = flat_map (segment_patches (ylim_top σ) (default 0 (last zs))) segs
      ++ connector_pass (ylim_top σ) (default 0 (head zs)) zs.
Proof.
  intros Hin Hty Hzs Hempty out.
  assert (flat_map covered segs = []) as Hcov.
  { clear -Hempty. induction Hempty as [|seg segs H _ IH]; [done|].
    simpl. by rewrite (covered_empty_range seg H), IH. }
  assert (out.2 = Ok ()) as Hok.
  { subst out. rewrite (layout_outcome _ _ _ _ _ Hin Hty Hzs).
    by rewrite Hcov. }
  destruct (layout_ok_spec _ _ _ _ _ Hin Hty Hok) as (rem & Hrm & Hheap & Hadd).
  fold out in Hheap, Hadd. rewrite Hcov in Hrm. simpl in Hrm.
  injection Hrm as Hrm. apply (f_equal ints_of) in Hrm.
  rewrite !ints_of_fmap in Hrm. subst rem. split_and!; try done.
  rewrite Hheap. apply lookup_insert_eq.
Qed.

Lemma empty_ranges_remove_nothing_witness :
  let σ := caller_state 1 (VInt <$> track_5_9) [strand_4_4] in
  let out := find_ss_segments_and_generate_overlay caller_self σ in
  out.2 = Ok ()
  ∧ heap out.1 !! fresh (dom (heap σ)) = Some (OList (VInt <$> track_5_9)).
Proof.
  intros σ out.
  destruct (empty_ranges_remove_nothing caller_self track_5_9 [strand_4_4]
              (caller_refs [strand_4_4]) σ (caller_state_inputs 1 _ _))
    as (H1 & H2 & _).
  - repeat constructor. exists "Strand", 4, 4. by repeat split.
  - done.
  - repeat constructor. intros cls s e (_ & [= <-] & [= <-]). lia.
  - split; [exact H1|exact H2].
Defined.

(** X13. The end residue of a strand is drawn twice when it is still in
    the worklist after the first loop and is not the first residue of the
    track: once right after the arrow, and once more by the second loop,
    at the same position. *)
Theorem strand_end_is_drawn_twice
    (self : overlay) (zs : list Z) (segs : list (list val)) (ls : list loc)
    (σ : state) (seg : list val) (s e : Z) (rem : list Z) :
  inputs_at self (VInt <$> zs) segs ls (heap σ) →
  Forall typed_segment segs →
  let out := find_ss_segments_and_generate_overlay self σ in
  out.2 = Ok () →
  heap out.1 !! fresh (dom (heap σ)) = Some (OList (VInt <$> rem)) →
  seg ∈ segs → segment_of seg "Strand" s e →
  e ∈ rem → e ≠ default 0 (head zs) →
  ∃ i j : nat,
    (i < j)%nat
    ∧ added σ out.1 !! i = Some (connector (ylim_top σ) e)
    ∧ added σ out.1 !! j = Some (connector (ylim_top σ) e).
Proof.
  intros Hin Hty out Hok Hrem Hseg Hstrand He Hfirst.
  destruct (layout_ok_spec _ _ _ _ _ Hin Hty Hok) as (rem' & _ & Hheap & Hadd).
  fold out in Hheap, Hadd. rewrite Hheap, lookup_insert_eq in Hrem.
  injection Hrem as Hrem. apply (f_equal ints_of) in Hrem.
  rewrite !ints_of_fmap in Hrem. subst rem'.
  set (A := flat_map _ segs) in Hadd.
  set (B := connector_pass _ _ rem) in Hadd.
  assert (connector (ylim_top σ) e ∈ A) as HA.
  { apply list_elem_of_In, in_flat_map. exists seg.
    split; [by apply list_elem_of_In|]. apply list_elem_of_In.
    destruct Hstrand as (H0 & H2 & H4). unfold segment_patches.
    rewrite H0, H2, H4. rewrite decide_True by done. set_solver. }
  assert (connector (ylim_top σ) e ∈ B) as HB.
  { unfold B, connector_pass. apply list_elem_of_fmap. exists e.
    split; [|done]. by rewrite bool_decide_eq_false_2. }
  apply list_elem_of_lookup in HA as [i Hi].
  apply list_elem_of_lookup in HB as [j Hj].
  exists i, (length A + j)%nat. rewrite Hadd. split_and!.
  - apply lookup_lt_Some in Hi. lia.
  - by rewrite lookup_app_l by (by eapply lookup_lt_Some).
  - by rewrite lookup_app_r, Nat.add_comm, Nat.add_sub by lia.
Qed.

Lemma strand_end_is_drawn_twice_witness :
  let σ := caller_state 1 (VInt <$> track_1_10) [strand_2_5] in
  let out := find_ss_segments_and_generate_overlay caller_self σ in
  ∃ i j : nat,
    (i < j)%nat
    ∧ added σ out.1 !! i = Some (connector 1 5)
    ∧ added σ out.1 !! j = Some (connector 1 5).
Proof.
  intros σ out.
  apply (strand_end_is_drawn_twice caller_self track_1_10 [strand_2_5]
           (caller_refs [strand_2_5]) σ strand_2_5 2 5
           [1; 5; 6; 7; 8; 9; 10] (caller_state_inputs 1 _ _)).
  - repeat constructor. apply typed_strand_2_5.
  - reflexivity.
  - reflexivity.
  - apply list_elem_of_here.
  - by repeat split.
  - apply (bool_decide_unpack _). vm_compute. exact I.
  - done.
Defined.

(** ** The records of a stride file *)

(** X14. When the parser returns, it returns one record for each line that
    starts with LOC, and every record has at least five fields, with a
    string at position 0 and integers at positions 2 and 4: the records
    have the form the overlay reads. *)
Theorem parsed_records_are_typed
    (stride_lines : list string) (records : list (list val)) :
  read_secondary_structure_assignment stride_lines = Ok records →
  length records
  = length (filter (λ line, str_take 3 line = "LOC") stride_lines)
  ∧ Forall (λ r, typed_segment r ∧ (5 ≤ length r)%nat) records.
Proof.
  intros H. split; [|by eapply parsed_records_typed].
  rewrite read_records_by in H. unfold records_by in H.
  apply all_ok_Forall2, Forall2_length in H.
  by rewrite length_fmap in H.
Qed.

Lemma parsed_records_are_typed_witness :
  length [strand_2_5]
  = length (filter (λ line, str_take 3 line = "LOC")
              [header_line; strand_line])
  ∧ Forall (λ r, typed_segment r ∧ (5 ≤ length r)%nat) [strand_2_5].
Proof.
  apply (parsed_records_are_typed [header_line; strand_line] [strand_2_5]).
  vm_compute. reflexivity.
Defined.

(** X15. The constructor applied to a track of integers and to records
    that the parser returned never fails with a TypeError or an
    IndexError on a track that is not empty: it returns the overlay with
    the two lists it was given, or raises the ValueError of a residue that
    is not on the track. *)
Theorem parsed_segments_construct_or_raise_ValueError
    (stride_lines : list string) (records : list (list val))
    (zs : list Z) (residue_numbers ss_segment_list : loc)
    (ls : list loc) (σ : state) :
  read_secondary_structure_assignment stride_lines = Ok records →
  inputs_at (Overlay residue_numbers ss_segment_list)
            (VInt <$> zs) records ls (heap σ) →
  let out := __init__ residue_numbers ss_segment_list σ in
  out.2 = Ok (Overlay residue_numbers ss_segment_list)
  ∨ out.2 = Raise ValueError
  ∨ (zs = [] ∧ out.2 = Raise IndexError).
Proof.
  intros Hread Hin out. subst out.
  assert (Forall typed_segment records) as Hty.
  { eapply Forall_impl; [by eapply parsed_records_typed|]. by intros r [? _]. }
  pose proof (layout_outcomes _ _ _ _ _ Hin Hty) as Ho.
  unfold __init__.
  destruct (find_ss_segments_and_generate_overlay _ σ) as [σ' [[]| |]] eqn:E;
    simpl in Ho.
  - left. by rewrite (bind_ok _ _ _ _ _ E).
  - rewrite (bind_raise _ _ _ _ _ E). simpl.
    destruct Ho as [Ho|[Ho|[? Ho]]]; try done.
    + injection Ho as ->. by right; left.
    + injection Ho as ->. by right; right.
  - destruct Ho as [Ho|[Ho|[? Ho]]]; done.
Qed.

Lemma parsed_segments_construct_or_raise_ValueError_witness :
  let σ := caller_state 1 (VInt <$> track_1_10) [strand_2_5] in
  let out := __init__ 1 2 σ in
  out.2 = Ok (Overlay 1 2) ∨ out.2 = Raise ValueError
  ∨ (track_1_10 = [] ∧ out.2 = Raise IndexError).
Proof.
  intros σ.
  apply (parsed_segments_construct_or_raise_ValueError
           [header_line; strand_line] [strand_2_5] track_1_10 1 2
           (caller_refs [strand_2_5]) σ).
  - vm_compute. reflexivity.
  - apply caller_state_inputs.
Defined.

(** X16. A line that does not start with LOC has no effect on the result,
    wherever it stands in the file; this holds in particular for a line of
    fewer than three characters, which the slice [[:3]] accepts. *)
Theorem other_lines_are_skipped
    (before after : list string) (line : string) :
  str_take 3 line ≠ "LOC" ∨ (String.length line < 3)%nat →
  read_secondary_structure_assignment (before ++ line :: after)
  = read_secondary_structure_assignment (before ++ after).
Proof.
  intros Hno.
  assert (str_take 3 line ≠ "LOC")
    by (destruct Hno; [done|by apply short_line_not_LOC]).
  rewrite !read_records_by. unfold records_by.
  by rewrite !filter_app, filter_cons, decide_False.
Qed.

Lemma other_lines_are_skipped_witness :
  read_secondary_structure_assignment ([strand_line] ++ "" :: [strand_line])
  = read_secondary_structure_assignment ([strand_line] ++ [strand_line]).
Proof.
  apply (other_lines_are_skipped [strand_line] [strand_line] "").
  right. simpl. lia.
Defined.

(** X17. A line that starts with LOC gives a record exactly when, once the
    five deletions are made, it has at least five fields between blanks
    and the fields at positions 2 and 4 are numerals; any other such line
    raises an IndexError or a ValueError. *)
Theorem LOC_line_is_accepted_iff (line : string) :
  let fields := words is_blank (strip_noise line) in
  ((∃ record, interpret_LOC_line line = Ok record)
   ↔ (∃ t2 t4 z2 z4,
        fields !! 2%nat = Some t2 ∧ fields !! 4%nat = Some t4
        ∧ int_of_string t2 = Some z2 ∧ int_of_string t4 = Some z4))
  ∧ ((∃ record, interpret_LOC_line line = Ok record)
     ∨ interpret_LOC_line line = Raise IndexError
     ∨ interpret_LOC_line line = Raise ValueError)
  ∧ ((length fields < 3)%nat → interpret_LOC_line line = Raise IndexError).
Proof.
  intros fields. rewrite interpret_LOC_line_spec. fold fields.
  split_and!.
  - split.
    + intros [r Hr].
      apply record_of_tokens_ok in Hr
        as (t0 & t1 & t2 & t3 & t4 & more & z2 & z4 & -> & E2 & E4 & _).
      by exists t2, t4, z2, z4.
    + intros (t2 & t4 & z2 & z4 & H2 & H4 & E2 & E4).
      destruct fields as [|t0 [|t1 [|t2' [|t3 [|t4' more]]]]]; try done.
      simpl in H2, H4. injection H2 as ->. injection H4 as ->.
      simpl. rewrite E2, E4. eauto.
  - apply record_of_tokens_outcome.
  - intros Hlen. destruct fields as [|t0 [|t1 [|t2 rest]]]; try done.
    simpl in Hlen. lia.
Qed.

(** X18. The lines are read in order and independently of each other: the
    records of two files one after the other are the records of the first
    followed by those of the second, and the first exception met ends the
    reading. *)
Theorem records_of_concatenated_files (first second : list string) :
  read_secondary_structure_assignment (first ++ second)
  = match read_secondary_structure_assignment first with
    | Ok r1 =>
        match read_secondary_structure_assignment second with
        | Ok r2 => Ok (r1 ++ r2)
        | Raise e => Raise e
        | Undefined => Undefined
        end
    | Raise e => Raise e
    | Undefined => Undefined
    end.
Proof.
  rewrite read_app.
  destruct (read_secondary_structure_assignment first) as [r1| |];
    simpl; done.
Qed.
